(** * Juicity server: connection lifecycle and authentication gate

    A shallow embedding of [server/server.go]: [New], [Serve],
    [handleConn], [handleAuth] and [handleStream], written as programs over
    an explicit signature of effects (transport calls, cancellation scopes,
    dialer, relay, logger), together with a handler that gives those
    effects their meaning on a store of per-connection state and a
    scheduler that interleaves goroutines. *)

From Stdlib Require Import ZArith List Bool Lia Ascii String DecimalString.
From Stdlib Require Import PrimFloat Uint63 SpecFloat FloatOps.
From stdpp Require Import gmap strings list.

Local Open Scope string_scope.
Local Open Scope Z_scope.

(** ** Go errors *)

(** The error values the server manipulates.  [ErrWrap p e] is
    [fmt.Errorf(p + ": %w", e)], [ErrWrapV e v] is [fmt.Errorf("%w: %v", e, v)];
    both keep [e] reachable by [errors.Unwrap].  [ErrNet] stands for any value
    implementing [net.Error]; its flag is what [Timeout()] answers. *)
Inductive error : Type :=
| ErrNew (msg : string)
| ErrCanceled
| ErrDeadlineExceeded
| ErrEOF
| ErrNet (timeout : bool) (msg : string)
| ErrWrap (prefix : string) (e : error)
| ErrWrapV (e : error) (v : string).

Global Instance error_eq_dec : EqDecision error.
Proof. solve_decision. Defined.

(** [err.Error()] *)
Fixpoint Error (e : error) : string :=
  match e with
  | ErrNew msg => msg
  | ErrCanceled => "context canceled"
  | ErrDeadlineExceeded => "context deadline exceeded"
  | ErrEOF => "EOF"
  | ErrNet _ msg => msg
  | ErrWrap p e' => p ++ ": " ++ Error e'
  | ErrWrapV e' v => Error e' ++ ": " ++ v
  end.

(** [errors.Is(err, target)]: walk the [Unwrap] chain comparing with [==]. *)
Fixpoint errors_Is (e target : error) : bool :=
  bool_decide (e = target) ||
  match e with
  | ErrWrap _ e' | ErrWrapV e' _ => errors_Is e' target
  | _ => false
  end.

(** [errors.As(err, &netErr) && netErr.Timeout()]: the first value of the
    chain that implements [net.Error] answers.  [context.DeadlineExceeded]
    implements it and answers [true]; [context.Canceled] and [io.EOF] are
    plain errors. *)
Fixpoint is_net_timeout (e : error) : bool :=
  match e with
  | ErrDeadlineExceeded => true
  | ErrNet t _ => t
  | ErrWrap _ e' | ErrWrapV e' _ => is_net_timeout e'
  | ErrNew _ | ErrCanceled | ErrEOF => false
  end.

(** [strings.HasSuffix(s, suffix)] *)
Definition HasSuffix (s suffix : string) : bool :=
  let n := String.length s in
  let m := String.length suffix in
  (m <=? n)%nat && String.eqb (String.substring (n - m) m s) suffix.

(** [bytealg.IndexByteString(s, c) >= 0] *)
Fixpoint contains_byte (c : ascii) (s : string) : bool :=
  match s with
  | EmptyString => false
  | String a s' => Ascii.eqb a c || contains_byte c s'
  end.

(** [net.JoinHostPort(host, port)] *)
Definition JoinHostPort (host port : string) : string :=
  if contains_byte ":"%char host
  then "[" ++ host ++ "]:" ++ port
  else host ++ ":" ++ port.

(** [strconv.Itoa] on a non-negative value *)
Definition Itoa (n : N) : string := NilEmpty.string_of_uint (N.to_uint n).

Definition ErrUnexpectedVersion : error := ErrNew "unexpected version".
Definition ErrUnexpectedCmdType : error := ErrNew "unexpected cmd type".
Definition ErrAuthenticationFailed : error := ErrNew "authentication failed".

(** ** Machine arithmetic *)

Definition min_int64 : Z := - 2 ^ 63.
Definition max_int64 : Z := 2 ^ 63 - 1.

(** Two's complement wrap-around of [int64] addition. *)
Definition wrap64 (z : Z) : Z := (z + 2 ^ 63) mod 2 ^ 64 - 2 ^ 63.

(** [uint32(x)] for an [int] [x] *)
Definition uint32 (x : Z) : Z := x mod 2 ^ 32.

(** [float64(x)] for an [int64] [x]: the nearest binary64 value. *)
Definition float64 (x : Z) : float :=
  if x <? 0 then
    if x =? min_int64
    then PrimFloat.opp (PrimFloat.mul (PrimFloat.of_uint63 (Uint63.of_Z (2 ^ 62)))
                                      (PrimFloat.of_uint63 2%uint63))
    else PrimFloat.opp (PrimFloat.of_uint63 (Uint63.of_Z (- x)))
  else PrimFloat.of_uint63 (Uint63.of_Z x).

(** [int64(math.Ceil(f))]: the least integer not below [f].  The ceiling of
    a finite binary64 value is itself a binary64 value, so only the
    conversion to [int64] can lose anything; outside the range of [int64]
    (and on infinities and NaN) the conversion yields the smallest [int64],
    as the amd64 instruction does. *)
Definition int64_Ceil (f : float) : Z :=
  match Prim2SF f with
  | S754_zero _ => 0
  | S754_finite sign m e =>
      let c := if 0 <=? e then Z.pos m * 2 ^ e
               else if sign then - (Z.pos m / 2 ^ (- e))
               else - ((- Z.pos m) / 2 ^ (- e)) in
      let c := if 0 <=? e then (if sign then - c else c) else c in
      if (min_int64 <=? c) && (c <=? max_int64) then c else min_int64
  | S754_infinity _ | S754_nan => min_int64
  end.

(** [x + int64(math.Ceil(float64(x) / 10.0))] *)
Definition add_headroom (x : Z) : Z :=
  wrap64 (x + int64_Ceil (PrimFloat.div (float64 x) (PrimFloat.of_uint63 10%uint63))).

(** ** Data *)

(** [uuid.UUID] is a 16-byte array and a token a 32-byte array; both are
    compared with [==], so they are modelled by the number they hold. *)
Definition UUID := N.
Definition Token := N.

(** What the server takes from the libraries it is linked with. *)
Class Externals := {
  Certificate : Type;
  Addr : Type;
  ConnectionState : Type;
  (** [juicity.Version0], [tuic.AuthenticateType], [tuic.AuthenticationFailed] *)
  Version0 : Z;
  AuthenticateType : Z;
  AuthenticationFailed : Z;
  (** receive windows of [tuic/common] *)
  InitialStreamReceiveWindow : Z;
  MaxStreamReceiveWindow : Z;
  InitialConnectionReceiveWindow : Z;
  MaxConnectionReceiveWindow : Z;
  uuid_Parse : string -> UUID + error;
  LoadX509KeyPair : string -> string -> Certificate + error;
  ParseAddr : string -> Addr + error;
  GenToken : ConnectionState -> UUID -> string -> Token + error;
  MagicNetwork_Encode : string -> Z -> string;
  (** [%v] renderings used in error messages *)
  fmt_bytes : list Z -> string;
  fmt_cmdtype : Z -> string;
  fmt_uuid : UUID -> string;
}.

Section Server.
Context `{Ext : Externals}.

(** The two dialers of package [direct] that [New] can select. *)
Inductive Dialer : Type :=
| FullconeDirect
| NewDirectDialerLaddr (fullCone : bool) (lAddr : Addr).

(** [Options].  [Users] is a map from identifier to password; it is kept
    as the list of its entries, since [New] only ranges over it.  The
    logger is not a field here: logging is an effect, see [Log]. *)
Record Options := {
  Users : list (string * string);
  opt_Certificate : string;
  PrivateKey : string;
  CongestionControl : string;
  Fwmark : Z;
  SendThrough : string;
}.

(** The fields of [tls.Config] that [New] sets. *)
Record tlsConfig_t := {
  NextProtos : list string;
  MinVersionTLS13 : bool;
  Certificates : list Certificate;
}.

(** [Server].  Its logger and its relay are the effects [Log], [RelayTCP]
    and [RelayUoT]. *)
Record Server := {
  dialer : Dialer;
  tlsConfig : tlsConfig_t;
  maxOpenIncomingStreams : Z;
  congestionControl : string;
  cwnd : Z;
  users : gmap UUID string;
  fwmark : Z;
}.

(** The parsed relay request of a data stream ([juicity.Metadata]). *)
Record Metadata := {
  Network : string;
  Hostname : string;
  Port : N;
}.

(** [tuic.CommandHead] and [tuic.Authenticate], as far as [handleAuth]
    reads them. *)
Record CommandHead := { TYPE : Z }.

Record Authenticate := {
  auth_UUID : UUID;
  TOKEN : Token;
}.

(** A dialed remote connection, known by a handle. *)
Definition RConn := nat.

(** ** The transport as the server observes it

    A stream, a connection and a listener are described by what each of
    their calls answers.  A data stream carries the outcome of reading its
    header and of relaying it; the control stream what the three reads
    return; a connection its streams, in arrival order, and the failure that
    [AcceptStream] reports once they are used up. *)
Record Stream := {
  st_header : Metadata + error;
  st_relayTCP : RConn -> option error;
  st_relayUoT : option error;
}.

Record UniStream := {
  us_peek : Z + error;
  us_head : CommandHead + error;
  us_auth : Authenticate + error;
}.

Record Conn := {
  conn_id : nat;
  RemoteAddr : string;
  conn_state : ConnectionState;
  conn_uni : UniStream + error;
  conn_streams : list Stream;
  conn_accept_err : error;
}.

Record Listener := {
  ln_conns : list Conn;
  ln_err : error;
}.

Record quic_Config := {
  cfg_InitialStreamReceiveWindow : Z;
  cfg_MaxStreamReceiveWindow : Z;
  cfg_InitialConnectionReceiveWindow : Z;
  cfg_MaxConnectionReceiveWindow : Z;
  MaxIncomingStreams : Z;
  MaxIncomingUniStreams : Z;
  KeepAlivePeriod_seconds : Z;
  DisablePathMTUDiscovery : bool;
  EnableDatagrams : bool;
}.

(** What lies beyond the server: binding the listening socket and dialing. *)
Record World := {
  w_listen : string -> Listener + error;
  w_dial : Dialer -> string -> string -> RConn + error;
}.

(** ** Effects *)

(** [handleConn] makes two cancellation scopes per connection: [ctx], the
    root, and [authCtx], derived from it. *)
Inductive scope := Root | Auth.

Inductive level := Debug | Warn.

(** The goroutines the server starts. *)
Inductive goroutine :=
| GoHandleConn (conn : Conn)
| GoAuth (conn : Conn)
| GoStream (conn : Conn) (stream : Stream).

Inductive op : Type -> Type :=
| Log (lvl : level) (err : option error) (fields : list (string * string)) (msg : string) : op unit
| ListenAddr (addr : string) (tls : tlsConfig_t) (cfg : quic_Config) : op (Listener + error)
| Accept (ln : Listener) : op (Conn + error)
| SetCongestionController (conn : Conn) (cc : string) (cwnd : Z) : op unit
| AcceptStream (conn : Conn) : op (Stream + error)
| AcceptUniStream (conn : Conn) : op (UniStream + error)
| CloseWithError (conn : Conn) (code : Z) (reason : string) : op unit
| Cancel (conn : Conn) (c : scope) : op unit
| Done (conn : Conn) (c : scope) : op unit
| PollDone (conn : Conn) (c : scope) : op bool
| CtxErr (conn : Conn) (c : scope) : op (option error)
| Peek1 (u : UniStream) : op (Z + error)
| ReadCommandHead (u : UniStream) : op (CommandHead + error)
| ReadAuthenticateWithHead (h : CommandHead) (u : UniStream) : op (Authenticate + error)
| ReadHeader (st : Stream) : op (Metadata + error)
| StreamClose (st : Stream) : op unit
| Dial (d : Dialer) (network target : string) : op (RConn + error)
| RConnClose (rc : RConn) : op unit
| RelayTCP (st : Stream) (rc : RConn) : op (option error)
| RelayUoT (d : Dialer) (st : Stream) (mark : Z) : op (option error)
| Go (g : goroutine) : op unit
| Forever : op Empty_set.

(** A program: a result, or an effect and what to do with its answer. *)
Inductive proc (R : Type) : Type :=
| Ret (r : R)
| Vis {A : Type} (o : op A) (k : A -> proc R).
Arguments Ret {R} r.
Arguments Vis {R A} o k.

Fixpoint bind {R S : Type} (p : proc R) (f : R -> proc S) : proc S :=
  match p with
  | Ret r => f r
  | Vis o k => Vis o (fun a => bind (k a) f)
  end.

Definition trigger {A : Type} (o : op A) : proc A := Vis o Ret.

(** [defer cleanup(); body]: the cleanup runs when the body returns, and the
    body's result is what the function returns. *)
Definition defer {R : Type} (cleanup : proc unit) (body : proc R) : proc R :=
  bind body (fun r => bind cleanup (fun _ => Ret r)).

(** An iteration bound reached: the goroutine goes on for ever, it does not
    return. *)
Definition forever {R : Type} : proc R :=
  Vis Forever (fun x : Empty_set => match x with end).

Global Instance proc_ret : MRet proc := fun _ r => Ret r.
Global Instance proc_bind : MBind proc := fun _ _ f p => bind p f.

(** ** The server *)

(** [for _uuid, password := range opts.Users]: the entries are visited in
    the order the runtime picks, here the order of the list; the first
    identifier that does not parse ends [New]. *)
Fixpoint parseUsers (l : list (string * string)) (acc : gmap UUID string)
  : gmap UUID string + error :=
  match l with
  | [] => inl acc
  | (_uuid, password) :: l' =>
      match uuid_Parse _uuid with
      | inr err => inr (ErrWrap ("parse uuid(" ++ _uuid ++ ")") err)
      | inl id => parseUsers l' (<[id := password]> acc)
      end
  end.

Definition New (opts : Options) : Server + error :=
  match parseUsers (Users opts) ∅ with
  | inr err => inr err
  | inl users =>
      match LoadX509KeyPair (opt_Certificate opts) (PrivateKey opts) with
      | inr err => inr err
      | inl cert =>
          let mk dialer :=
            {| dialer := dialer;
               tlsConfig := {| NextProtos := ["h3"];
                               MinVersionTLS13 := true;
                               Certificates := [cert] |};
               maxOpenIncomingStreams := 100;
               congestionControl := CongestionControl opts;
               cwnd := 10;
               users := users;
               fwmark := Fwmark opts |} in
          if String.eqb (SendThrough opts) "" then inl (mk FullconeDirect)
          else
            match ParseAddr (SendThrough opts) with
            | inr err => inr (ErrWrap "parse send_through" err)
            | inl lAddr => inl (mk (NewDirectDialerLaddr true lAddr))
            end
      end
  end.

(** The [quic.Config] that [Serve] hands to [quic.ListenAddr]. *)
Definition Serve_config (s : Server) : quic_Config :=
  let quicMaxOpenIncomingStreams := maxOpenIncomingStreams s in
  let quicMaxOpenIncomingStreams := add_headroom quicMaxOpenIncomingStreams in
  {| cfg_InitialStreamReceiveWindow := InitialStreamReceiveWindow;
     cfg_MaxStreamReceiveWindow := MaxStreamReceiveWindow;
     cfg_InitialConnectionReceiveWindow := InitialConnectionReceiveWindow;
     cfg_MaxConnectionReceiveWindow := MaxConnectionReceiveWindow;
     MaxIncomingStreams := quicMaxOpenIncomingStreams;
     MaxIncomingUniStreams := quicMaxOpenIncomingStreams;
     KeepAlivePeriod_seconds := 10;
     DisablePathMTUDiscovery := false;
     EnableDatagrams := false |}.

(** [handleAuth].  The scope it derives with [AuthenticateTimeout] is used
    for [AcceptUniStream] only, whose answer tells whether the control stream
    came in time; [bufio.Reader] and the parsers of [tuic] are the three
    reads. *)
Definition handleAuth (s : Server) (conn : Conn) : proc (UUID + error) :=
  r ← trigger (AcceptUniStream conn);
  match r with
  | inr err => mret (inr err)
  | inl uniStream =>
  r ← trigger (Peek1 uniStream);
  match r with
  | inr err => mret (inr err)
  | inl v0 =>
  if v0 =? Version0 then
    r ← trigger (ReadCommandHead uniStream);
    match r with
    | inr err => mret (inr (ErrWrap "ReadCommandHead" err))
    | inl commandHead =>
    if TYPE commandHead =? AuthenticateType then
      r ← trigger (ReadAuthenticateWithHead commandHead uniStream);
      match r with
      | inr err => mret (inr (ErrWrap "ReadAuthenticateWithHead" err))
      | inl authenticate =>
          let failed :=
            inr (ErrWrapV ErrAuthenticationFailed (fmt_uuid (auth_UUID authenticate))) in
          match users s !! auth_UUID authenticate with
          | Some password =>
              match GenToken (conn_state conn) (auth_UUID authenticate) password with
              | inr err => mret (inr (ErrWrap "GenToken" err))
              | inl token =>
                  if N.eqb token (TOKEN authenticate)
                  then mret (inl (auth_UUID authenticate))
                  else
                    trigger (CloseWithError conn AuthenticationFailed
                                            (Error ErrAuthenticationFailed));;
                    mret failed
              end
          | None => mret failed
          end
      end
    else mret (inr (ErrWrapV ErrUnexpectedCmdType (fmt_cmdtype (TYPE commandHead))))
    end
  else mret (inr (ErrWrapV ErrUnexpectedVersion (fmt_bytes [v0])))
  end
  end.

(** The test both relay branches of [handleStream] apply to a relay error. *)
Definition relay_ignored (err : error) : bool :=
  errors_Is err ErrEOF || is_net_timeout err
  || HasSuffix (Error err) "with error code 0".

Definition handleStream (s : Server) (conn : Conn) (stream : Stream)
  : proc (option error) :=
  defer (trigger (StreamClose stream)) (
    r ← trigger (ReadHeader stream);
    match r with
    | inr err => mret (Some err)
    | inl mdata =>
        trigger (Done conn Auth);;
        cancelled ← trigger (PollDone conn Root);
        if cancelled : bool then trigger (CtxErr conn Root)
        else if String.eqb (Network mdata) "tcp" then
          let target := JoinHostPort (Hostname mdata) (Itoa (Port mdata)) in
          let source := RemoteAddr conn in
          trigger (Log Debug None [("target", target); ("source", source)]
                       "juicity received a tcp request");;
          r ← trigger (Dial (dialer s) (MagicNetwork_Encode "tcp" (uint32 (fwmark s))) target);
          match r with
          | inr err =>
              if is_net_timeout err
              then trigger (Log Debug (Some err) [] "");; mret None
              else mret (Some err)
          | inl rConn =>
              defer (trigger (RConnClose rConn)) (
                r ← trigger (RelayTCP stream rConn);
                match r with
                | Some err =>
                    if relay_ignored err then mret None
                    else mret (Some (ErrWrap "relay tcp error" err))
                | None => mret None
                end)
          end
        else if String.eqb (Network mdata) "udp" then
          r ← trigger (RelayUoT (dialer s) stream (fwmark s));
          match r with
          | Some err =>
              if relay_ignored err then mret None
              else mret (Some (ErrWrap "relay udp error" err))
          | None => mret None
          end
        else mret (Some (ErrNew ("unexpected network: " ++ Network mdata)))
    end).

(** The goroutine [handleConn] starts for authentication. *)
Definition authTask (s : Server) (conn : Conn) : proc unit :=
  r ← handleAuth s conn;
  match r with
  | inr err =>
      trigger (Log Warn (Some err) [] "handleAuth");;
      trigger (Cancel conn Root);;
      trigger (CloseWithError conn AuthenticationFailed "")
  | inl _ => trigger (Cancel conn Auth)
  end.

(** The goroutine [handleConn] starts for each accepted stream. *)
Definition streamTask (s : Server) (conn : Conn) (stream : Stream) : proc unit :=
  r ← handleStream s conn stream;
  match r with
  | Some err => trigger (Log Warn (Some err) [] "")
  | None => mret tt
  end.

(** The accept loop of [handleConn], for at most [n] iterations. *)
Fixpoint acceptLoop (n : nat) (conn : Conn) : proc (option error) :=
  match n with
  | O => forever
  | S n' =>
      r ← trigger (AcceptStream conn);
      match r with
      | inr err => mret (Some err)
      | inl stream => trigger (Go (GoStream conn stream));; acceptLoop n' conn
      end
  end.

(** [handleConn]: [cancel] is deferred first and [authDone] second, so on
    return [authDone] runs first.  The two scopes start live. *)
Definition handleConn (n : nat) (s : Server) (conn : Conn) : proc (option error) :=
  trigger (SetCongestionController conn (congestionControl s) (cwnd s));;
  defer (trigger (Cancel conn Root)) (
    defer (trigger (Cancel conn Auth)) (
      trigger (Go (GoAuth conn));;
      acceptLoop n conn)).

(** The goroutine [Serve] starts for each accepted connection. *)
Definition connTask (n : nat) (s : Server) (conn : Conn) : proc unit :=
  r ← handleConn n s conn;
  match r with
  | Some err =>
      if is_net_timeout err then mret tt
      else trigger (Log Warn (Some err) [] "")
  | None => mret tt
  end.

Fixpoint serveLoop (n : nat) (listener : Listener) : proc (option error) :=
  match n with
  | O => forever
  | S n' =>
      r ← trigger (Accept listener);
      match r with
      | inr err => mret (Some err)
      | inl conn => trigger (Go (GoHandleConn conn));; serveLoop n' listener
      end
  end.

Definition Serve (n : nat) (s : Server) (addr : string) : proc (option error) :=
  r ← trigger (ListenAddr addr (tlsConfig s) (Serve_config s));
  match r with
  | inr err => mret (Some err)
  | inl listener => serveLoop n listener
  end.

(** ** Meaning of the effects *)

(** What the goroutines of one connection share: the two cancellation
    scopes ([None] while live, else what [Err()] returns), the close the peer
    has been sent (the first [CloseWithError] wins, later ones do nothing)
    and how many streams [AcceptStream] has delivered. *)
Record ConnShared := {
  root_err : option error;
  auth_err : option error;
  closed : option (Z * string);
  accepted : nat;
}.

Definition fresh : ConnShared :=
  {| root_err := None; auth_err := None; closed := None; accepted := 0 |}.

Record Store := {
  ln_pos : nat;
  conns : gmap nat ConnShared;
}.

Definition store0 : Store := {| ln_pos := 0; conns := ∅ |}.

Definition conn_get (σ : Store) (conn : Conn) : ConnShared :=
  default fresh (conns σ !! conn_id conn).

Definition conn_set (σ : Store) (conn : Conn) (cs : ConnShared) : Store :=
  {| ln_pos := ln_pos σ; conns := <[conn_id conn := cs]> (conns σ) |}.

Definition scope_err (c : scope) (cs : ConnShared) : option error :=
  match c with Root => root_err cs | Auth => auth_err cs end.

(** Calling the cancel function of a scope: nothing if the scope is done
    already; else the scope is done with [context.Canceled], and a scope
    derived from it that is still live is done with the same error. *)
Definition cancel_scope (c : scope) (cs : ConnShared) : ConnShared :=
  match c, scope_err c cs with
  | _, Some _ => cs
  | Root, None =>
      {| root_err := Some ErrCanceled;
         auth_err := match auth_err cs with
                     | None => Some ErrCanceled
                     | Some e => Some e
                     end;
         closed := closed cs; accepted := accepted cs |}
  | Auth, None =>
      {| root_err := root_err cs; auth_err := Some ErrCanceled;
         closed := closed cs; accepted := accepted cs |}
  end.

Definition close_with (code : Z) (reason : string) (cs : ConnShared) : ConnShared :=
  {| root_err := root_err cs; auth_err := auth_err cs;
     closed := match closed cs with
               | None => Some (code, reason)
               | Some c => Some c
               end;
     accepted := accepted cs |}.

Definition accept_next (cs : ConnShared) : ConnShared :=
  {| root_err := root_err cs; auth_err := auth_err cs;
     closed := closed cs; accepted := S (accepted cs) |}.

(** What [AcceptUniStream] answers [handleAuth]: the root scope's error when
    the root scope is done already, else what the connection delivers (the
    control stream, or a failure such as the expiry of the ten seconds). *)
Definition control_stream (σ : Store) (conn : Conn) : UniStream + error :=
  match root_err (conn_get σ conn) with
  | Some e => inr e
  | None => conn_uni conn
  end.

(** What a goroutine did: the effects it performed, in order. *)
Inductive event : Type :=
| Ev (A : Type) (o : op A).
Arguments Ev {A} o.

Inductive outcome (R : Type) : Type :=
| Returned (r : R)
| Blocked.
Arguments Returned {R} r.
Arguments Blocked {R}.

Section Run.
Variable w : World.

(** One effect on the store: its answer, the new store and the goroutines
    it starts; [None] when the caller cannot proceed (a receive on the
    [Done] channel of a live scope).  [AcceptStream] is called with the root
    scope and [AcceptUniStream] with a scope derived from it: once the root
    scope is done both fail with its error; before that they answer what the
    connection delivers.  Waiting for the peer takes no step of its own: how
    long a call takes, and so whether a deadline passes, is decided by what
    the listener, the connection and the world are given to answer. *)
Definition handle {A : Type} (o : op A) (σ : Store)
  : option (A * Store * list goroutine) :=
  match o in op A return option (A * Store * list goroutine) with
  | Log _ _ _ _ => Some (tt, σ, [])
  | ListenAddr addr _ _ => Some (w_listen w addr, σ, [])
  | Accept ln =>
      match ln_conns ln !! ln_pos σ with
      | Some conn => Some (inl conn, {| ln_pos := S (ln_pos σ); conns := conns σ |}, [])
      | None => Some (inr (ln_err ln), σ, [])
      end
  | SetCongestionController _ _ _ => Some (tt, σ, [])
  | AcceptStream conn =>
      let cs := conn_get σ conn in
      match root_err cs with
      | Some e => Some (inr e, σ, [])
      | None =>
          match conn_streams conn !! accepted cs with
          | Some st => Some (inl st, conn_set σ conn (accept_next cs), [])
          | None => Some (inr (conn_accept_err conn), σ, [])
          end
      end
  | AcceptUniStream conn => Some (control_stream σ conn, σ, [])
  | CloseWithError conn code reason =>
      Some (tt, conn_set σ conn (close_with code reason (conn_get σ conn)), [])
  | Cancel conn c =>
      Some (tt, conn_set σ conn (cancel_scope c (conn_get σ conn)), [])
  | Done conn c =>
      match scope_err c (conn_get σ conn) with
      | Some _ => Some (tt, σ, [])
      | None => None
      end
  | PollDone conn c =>
      Some (bool_decide (is_Some (scope_err c (conn_get σ conn))), σ, [])
  | CtxErr conn c => Some (scope_err c (conn_get σ conn), σ, [])
  | Peek1 u => Some (us_peek u, σ, [])
  | ReadCommandHead u => Some (us_head u, σ, [])
  | ReadAuthenticateWithHead _ u => Some (us_auth u, σ, [])
  | ReadHeader st => Some (st_header st, σ, [])
  | StreamClose _ => Some (tt, σ, [])
  | Dial d network target => Some (w_dial w d network target, σ, [])
  | RConnClose _ => Some (tt, σ, [])
  | RelayTCP st rc => Some (st_relayTCP st rc, σ, [])
  | RelayUoT _ st _ => Some (st_relayUoT st, σ, [])
  | Go g => Some (tt, σ, [g])
  | Forever => None
  end.

(** A goroutine run on its own from a store: how it ends, the store it
    leaves and its effects.  The goroutines it starts are not run. *)
Fixpoint run {R : Type} (p : proc R) (σ : Store) : outcome R * Store * list event :=
  match p with
  | Ret r => (Returned r, σ, [])
  | Vis o k =>
      match handle o σ with
      | None => (Blocked, σ, [])
      | Some (a, σ', _) =>
          let '(res, σ'', evs) := run (k a) σ' in (res, σ'', Ev o :: evs)
      end
  end.

Definition is_dial (e : event) : bool :=
  match e with Ev (Dial _ _ _) => true | _ => false end.

Definition is_relay (e : event) : bool :=
  match e with Ev (RelayTCP _ _) | Ev (RelayUoT _ _ _) => true | _ => false end.

Definition is_wait (e : event) : bool :=
  match e with Ev (Done _ _) => true | _ => false end.

Definition is_warn (e : event) : bool :=
  match e with Ev (Log Warn _ _ _) => true | _ => false end.

(** ** Goroutines interleaved *)

Variable s : Server.
Variable fuel : nat.

Definition body (g : goroutine) : proc unit :=
  match g with
  | GoHandleConn conn => connTask fuel s conn
  | GoAuth conn => authTask s conn
  | GoStream conn stream => streamTask s conn stream
  end.

Record Sys := {
  store : Store;
  threads : list (goroutine * proc unit);
  trace : list (nat * event);
}.

(** Goroutine [i] performs its next effect. *)
Definition step (i : nat) (Σ : Sys) : option Sys :=
  match threads Σ !! i with
  | Some (g, Vis o k) =>
      match handle o (store Σ) with
      | Some (a, σ', gs) =>
          Some {| store := σ';
                  threads := <[i := (g, k a)]> (threads Σ)
                             ++ map (fun g' => (g', body g')) gs;
                  trace := trace Σ ++ [(i, Ev o)] |}
      | None => None
      end
  | _ => None
  end.

Fixpoint exec (sched : list nat) (Σ : Sys) : option Sys :=
  match sched with
  | [] => Some Σ
  | i :: sched' =>
      match step i Σ with
      | Some Σ' => exec sched' Σ'
      | None => None
      end
  end.

Definition start (g : goroutine) : Sys :=
  {| store := store0; threads := [(g, body g)]; trace := [] |}.

End Run.

(** ** Observations on runs and on the store *)

Definition result_of {R : Type} (x : outcome R * Store * list event) : outcome R := x.1.1.
Definition store_of {R : Type} (x : outcome R * Store * list event) : Store := x.1.2.
Definition events_of {R : Type} (x : outcome R * Store * list event) : list event := x.2.

(** The scopes of a connection only ever go from live to done, and a done
    root means a done auth scope. *)
Definition scopes_ok (cs : ConnShared) : Prop :=
  is_Some (root_err cs) -> is_Some (auth_err cs).

Definition target_of (mdata : Metadata) : string :=
  JoinHostPort (Hostname mdata) (Itoa (Port mdata)).

Definition unexpected_network (mdata : Metadata) : error :=
  ErrNew ("unexpected network: " ++ Network mdata).

(** The stream has a parsed header and finds the gate open: the auth scope
    is done and the root scope live. *)
Definition admitted (conn : Conn) (stream : Stream) (σ : Store) (mdata : Metadata) : Prop :=
  st_header stream = inl mdata ∧
  is_Some (auth_err (conn_get σ conn)) ∧
  root_err (conn_get σ conn) = None.

(** The control stream arrives and carries a well-formed [authenticate]
    command [a]: every read of [handleAuth] succeeds. *)
Definition presented (σ : Store) (conn : Conn) (a : Authenticate) : Prop :=
  ∃ (u : UniStream) (h : CommandHead),
    control_stream σ conn = inl u ∧
    us_peek u = inl Version0 ∧
    us_head u = inl h ∧
    TYPE h = AuthenticateType ∧
    us_auth u = inl a.

(** [handleAuth] accepts exactly a well-formed command whose identifier is
    configured and whose token is the derived one. *)
Definition authorised (s : Server) (σ : Store) (conn : Conn) (id : UUID) : Prop :=
  ∃ (a : Authenticate) (password : string),
    presented σ conn a ∧
    auth_UUID a = id ∧
    users s !! id = Some password ∧
    GenToken (conn_state conn) id password = inl (TOKEN a).

(** The connection whose shared state an effect may touch. *)
Definition op_conn {A : Type} (o : op A) : option Conn :=
  match o with
  | AcceptStream conn | CloseWithError conn _ _ | Cancel conn _ => Some conn
  | _ => None
  end.

(** The least integer not below [a / b], for positive [b]. *)
Definition ceil_div (a b : Z) : Z := - ((- a) / b).

(** The float computation of [Serve] against the exact one, on [n]
    consecutive limits from [x] on. *)
Fixpoint headroom_exact (n : nat) (x : Z) : bool :=
  match n with
  | O => true
  | S n' => Z.eqb (add_headroom x) (x + ceil_div x 10) && headroom_exact n' (x + 1)
  end.

(** Goroutine [i] performed an effect that [P] recognises. *)
Definition performed (i : nat) (P : event -> bool) (tr : list (nat * event)) : bool :=
  existsb (fun x => Nat.eqb x.1 i && P x.2) tr.

(** The warning the authentication goroutine logs when [handleAuth] failed. *)
Definition is_auth_failure (e : event) : bool :=
  match e with
  | Ev (Log Warn (Some _) _ msg) => String.eqb msg "handleAuth"
  | _ => false
  end.

Definition anything (e : event) : bool := true.

(** ** The gate, seen from the scheduler *)

(** Calls that reach beyond the server: the dialer and the two relays. *)
Definition is_outbound (e : event) : bool := is_dial e || is_relay e.

(** A call of [authDone], the cancel function of the auth scope of [conn]. *)
Definition is_authDone (conn : Conn) (e : event) : bool :=
  match e with
  | Ev (Cancel conn' Auth) => Nat.eqb (conn_id conn') (conn_id conn)
  | _ => false
  end.

Definition opened (conn : Conn) (tr : list (nat * event)) : bool :=
  existsb (fun x => is_authDone conn x.2) tr.

(** No effect that [P] recognises lies ahead in the program, whatever the
    answers. *)
Fixpoint never {R : Type} (P : event -> bool) (p : proc R) : Prop :=
  match p with
  | Ret _ => True
  | Vis o k => P (Ev o) = false ∧ ∀ a, never P (k a)
  end.

(** The program after its first effect got the answer that [pick] gives. *)
Definition resume {R : Type} (p : proc R) (pick : ∀ B, op B -> option B) : proc R :=
  match p with
  | Ret r => Ret r
  | Vis o k =>
      match pick _ o with
      | Some a => k a
      | None => Vis o k
      end
  end.

(** Two points of a stream's goroutine: the header is parsed and the
    goroutine is about to wait for the auth scope; the wait is over and it
    is about to look at the root scope. *)
Definition at_wait (s : Server) (conn : Conn) (stream : Stream) (mdata : Metadata)
  : proc unit :=
  resume (streamTask s conn stream)
    (fun B o => match o in op B return option B with
                | ReadHeader _ => Some (inl mdata)
                | _ => None
                end).

Definition at_check (s : Server) (conn : Conn) (stream : Stream) (mdata : Metadata)
  : proc unit :=
  resume (at_wait s conn stream mdata)
    (fun B o => match o in op B return option B with
                | Done _ _ => Some tt
                | _ => None
                end).

(** Where a goroutine may stand.  A stream's goroutine is at its start, at
    the wait, at the check with the auth scope done, in a part of the program
    with no outbound call ahead, or behind a gate that a call of [authDone]
    has opened; every other goroutine has no outbound call ahead. *)
Definition position (s : Server) (σ : Store) (tr : list (nat * event))
    (gp : goroutine * proc unit) : Prop :=
  match gp.1 with
  | GoStream conn stream =>
      gp.2 = streamTask s conn stream ∨
      (∃ mdata, gp.2 = at_wait s conn stream mdata) ∨
      (∃ mdata, gp.2 = at_check s conn stream mdata ∧
                is_Some (auth_err (conn_get σ conn))) ∨
      never is_outbound gp.2 ∨
      opened conn tr = true
  | _ => never is_outbound gp.2
  end.

(** An outbound call in the trace is a stream's, after [authDone]. *)
Definition stands (s : Server) (σ : Store) (tr : list (nat * event)) (i : nat)
    (gp : goroutine * proc unit) : Prop :=
  position s σ tr gp ∧
  (performed i is_outbound tr = true ->
   ∃ conn stream, gp.1 = GoStream conn stream ∧ opened conn tr = true).

(** A gate found open was opened by a call of [authDone]. *)
Definition gates_accounted (σ : Store) (tr : list (nat * event)) : Prop :=
  ∀ conn, is_Some (auth_err (conn_get σ conn)) ->
          root_err (conn_get σ conn) = None ->
          opened conn tr = true.

Definition invariant (s : Server) (Σ : Sys) : Prop :=
  gates_accounted (store Σ) (trace Σ) ∧
  (∀ i e, In (i, e) (trace Σ) -> (i < length (threads Σ))%nat) ∧
  (∀ i gp, threads Σ !! i = Some gp -> stands s (store Σ) (trace Σ) i gp).

(** What a run of [handleStream] does, by the way it ends. *)
Inductive stream_run (w : World) (s : Server) (conn : Conn) (stream : Stream)
    (σ : Store) : outcome (option error) -> list event -> Prop :=
| sr_header (err : error) :
    st_header stream = inr err ->
    stream_run w s conn stream σ (Returned (Some err))
      [Ev (ReadHeader stream); Ev (StreamClose stream)]
| sr_waiting (mdata : Metadata) :
    st_header stream = inl mdata ->
    auth_err (conn_get σ conn) = None ->
    stream_run w s conn stream σ Blocked [Ev (ReadHeader stream)]
| sr_rejected (mdata : Metadata) (e : error) :
    st_header stream = inl mdata ->
    is_Some (auth_err (conn_get σ conn)) ->
    root_err (conn_get σ conn) = Some e ->
    stream_run w s conn stream σ (Returned (Some e))
      [Ev (ReadHeader stream); Ev (Done conn Auth); Ev (PollDone conn Root);
       Ev (CtxErr conn Root); Ev (StreamClose stream)]
| sr_dial_timeout (mdata : Metadata) (err : error) :
    admitted conn stream σ mdata -> Network mdata = "tcp" ->
    w_dial w (dialer s) (MagicNetwork_Encode "tcp" (uint32 (fwmark s))) (target_of mdata)
      = inr err ->
    is_net_timeout err = true ->
    stream_run w s conn stream σ (Returned None)
      [Ev (ReadHeader stream); Ev (Done conn Auth); Ev (PollDone conn Root);
       Ev (Log Debug None [("target", target_of mdata); ("source", RemoteAddr conn)]
               "juicity received a tcp request");
       Ev (Dial (dialer s) (MagicNetwork_Encode "tcp" (uint32 (fwmark s))) (target_of mdata));
       Ev (Log Debug (Some err) [] ""); Ev (StreamClose stream)]
| sr_dial_failed (mdata : Metadata) (err : error) :
    admitted conn stream σ mdata -> Network mdata = "tcp" ->
    w_dial w (dialer s) (MagicNetwork_Encode "tcp" (uint32 (fwmark s))) (target_of mdata)
      = inr err ->
    is_net_timeout err = false ->
    stream_run w s conn stream σ (Returned (Some err))
      [Ev (ReadHeader stream); Ev (Done conn Auth); Ev (PollDone conn Root);
       Ev (Log Debug None [("target", target_of mdata); ("source", RemoteAddr conn)]
               "juicity received a tcp request");
       Ev (Dial (dialer s) (MagicNetwork_Encode "tcp" (uint32 (fwmark s))) (target_of mdata));
       Ev (StreamClose stream)]
| sr_tcp (mdata : Metadata) (rConn : RConn) (r : option error) :
    admitted conn stream σ mdata -> Network mdata = "tcp" ->
    w_dial w (dialer s) (MagicNetwork_Encode "tcp" (uint32 (fwmark s))) (target_of mdata)
      = inl rConn ->
    stream_run w s conn stream σ (Returned r)
      [Ev (ReadHeader stream); Ev (Done conn Auth); Ev (PollDone conn Root);
       Ev (Log Debug None [("target", target_of mdata); ("source", RemoteAddr conn)]
               "juicity received a tcp request");
       Ev (Dial (dialer s) (MagicNetwork_Encode "tcp" (uint32 (fwmark s))) (target_of mdata));
       Ev (RelayTCP stream rConn); Ev (RConnClose rConn); Ev (StreamClose stream)]
| sr_udp (mdata : Metadata) (r : option error) :
    admitted conn stream σ mdata -> Network mdata = "udp" ->
    stream_run w s conn stream σ (Returned r)
      [Ev (ReadHeader stream); Ev (Done conn Auth); Ev (PollDone conn Root);
       Ev (RelayUoT (dialer s) stream (fwmark s)); Ev (StreamClose stream)]
| sr_unexpected (mdata : Metadata) :
    admitted conn stream σ mdata ->
    Network mdata ≠ "tcp" -> Network mdata ≠ "udp" ->
    stream_run w s conn stream σ (Returned (Some (unexpected_network mdata)))
      [Ev (ReadHeader stream); Ev (Done conn Auth); Ev (PollDone conn Root);
       Ev (StreamClose stream)].

(** ** The command that starts the server *)

(** The fields of [config.Config] that the command's [Serve] reads. *)
Record Config := {
  conf_Users : list (string * string);
  conf_Certificate : string;
  conf_PrivateKey : string;
  conf_CongestionControl : string;
  Listen : string;
}.

(** The options the command hands to [New]: the four fields it sets; the
    others have the zero value of their type. *)
Definition main_Options (conf : Config) : Options :=
  {| Users := conf_Users conf;
     opt_Certificate := conf_Certificate conf;
     PrivateKey := conf_PrivateKey conf;
     CongestionControl := conf_CongestionControl conf;
     Fwmark := 0;
     SendThrough := "" |}.

(** The error of the command for a configuration without [Listen]; its
    message has the word Listen between double quotes (character 34). *)
Definition ErrListenRequired : error :=
  ErrNew (String (ascii_of_nat 34)
            ("Listen" ++ String (ascii_of_nat 34) " is required")).

(** [Serve] of package [main]. *)
Definition main_Serve (n : nat) (conf : Config) : proc (option error) :=
  match New (main_Options conf) with
  | inr err => mret (Some err)
  | inl s =>
      if String.eqb (Listen conf) "" then mret (Some ErrListenRequired)
      else
        r ← Serve n s (Listen conf);
        match r with
        | Some err => mret (Some err)
        | None => mret None
        end
  end.

(** ** Who does what *)

Definition is_close (e : event) : bool :=
  match e with Ev (CloseWithError _ _ _) => true | _ => false end.

Definition is_go (e : event) : bool :=
  match e with Ev (Go _) => true | _ => false end.

Definition is_cancel (e : event) : bool :=
  match e with Ev (Cancel _ _) => true | _ => false end.

Definition is_listen (e : event) : bool :=
  match e with Ev (ListenAddr _ _ _) => true | _ => false end.

Definition is_stream_close (e : event) : bool :=
  match e with Ev (StreamClose _) => true | _ => false end.

Definition is_rconn_close (e : event) : bool :=
  match e with Ev (RConnClose _) => true | _ => false end.

(** The calls that make the life of a stream: dialing, relaying and the
    two closes. *)
Definition lifecycle (e : event) : bool :=
  is_outbound e || is_rconn_close e || is_stream_close e.

(** The connection a goroutine was started for. *)
Definition conn_of (g : goroutine) : Conn :=
  match g with
  | GoHandleConn conn | GoAuth conn | GoStream conn _ => conn
  end.

(** The connection an effect is addressed to, if any. *)
Definition event_conn (e : event) : option Conn :=
  match e with
  | Ev o =>
      match o with
      | SetCongestionController conn _ _ | AcceptStream conn | AcceptUniStream conn
      | CloseWithError conn _ _ | Cancel conn _ | Done conn _ | PollDone conn _
      | CtxErr conn _ => Some conn
      | _ => None
      end
  end.

(** An effect that is not this goroutine's to perform: closing the
    connection is the authentication goroutine's, starting goroutines the
    connection goroutine's, outbound calls a stream's; a stream's goroutine
    cancels no scope; and no goroutine addresses another connection than its
    own. *)
Definition misplaced (g : goroutine) (e : event) : bool :=
  (is_close e && negb match g with GoAuth _ => true | _ => false end)
  || (is_go e && negb match g with GoHandleConn _ => true | _ => false end)
  || (is_outbound e && negb match g with GoStream _ _ => true | _ => false end)
  || (is_cancel e && match g with GoStream _ _ => true | _ => false end)
  || match event_conn e with
     | Some conn => negb (Nat.eqb (conn_id conn) (conn_id (conn_of g)))
     | None => false
     end.

(** The streams, respectively the connections, still to be delivered. *)
Definition streams_left (σ : Store) (conn : Conn) : list Stream :=
  drop (accepted (conn_get σ conn)) (conn_streams conn).

Definition conns_left (σ : Store) (ln : Listener) : list Conn :=
  drop (ln_pos σ) (ln_conns ln).

(** The effects of an accept loop that is delivered [l] and then fails. *)
Definition accept_events (conn : Conn) (l : list Stream) : list event :=
  (flat_map (fun st => [Ev (AcceptStream conn); Ev (Go (GoStream conn st))]) l
   ++ [Ev (AcceptStream conn)])%list.

Definition listen_events (ln : Listener) (l : list Conn) : list event :=
  (flat_map (fun conn => [Ev (Accept ln); Ev (Go (GoHandleConn conn))]) l
   ++ [Ev (Accept ln)])%list.

End Server.

Arguments Ret {Ext R} r.
Arguments Vis {Ext R A} o k.
Arguments Returned {R} r.
Arguments Blocked {R}.
Arguments Ev {Ext A} o.

(** ** A concrete setting

    One instance of the libraries and a few connections, on which the
    programs above are evaluated. *)
Module Demo.

Definition parse_demo (x : string) : UUID + error :=
  if String.eqb x "U1" then inl 1%N
  else if String.eqb x "U2" then inl 2%N
  else inr (ErrNew "invalid UUID length").

Definition parse_addr_demo (x : string) : string + error :=
  if String.eqb x "10.0.0.1" then inl x
  else inr (ErrNew "unable to parse IP").

Definition load_demo (c k : string) : unit + error :=
  if String.eqb c "cert.pem" && String.eqb k "key.pem" then inl tt
  else inr (ErrNew "open: no such file or directory").

#[local] Instance ext : Externals := {|
  Certificate := unit;
  Addr := string;
  ConnectionState := N;
  Version0 := 0;
  AuthenticateType := 0;
  AuthenticationFailed := 65521;
  InitialStreamReceiveWindow := 8388608;
  MaxStreamReceiveWindow := 8388608;
  InitialConnectionReceiveWindow := 20971520;
  MaxConnectionReceiveWindow := 20971520;
  uuid_Parse := parse_demo;
  LoadX509KeyPair := load_demo;
  ParseAddr := parse_addr_demo;
  GenToken := fun st id password =>
    inl (st * 1000 + id * 10 + N.of_nat (String.length password))%N;
  MagicNetwork_Encode := fun network mark => network;
  fmt_bytes := fun _ => "[?]";
  fmt_cmdtype := fun _ => "?";
  fmt_uuid := fun id => Itoa id;
|}.

Definition opts : Options :=
  {| Users := [("U1", "S1")];
     opt_Certificate := "cert.pem";
     PrivateKey := "key.pem";
     CongestionControl := "bbr";
     Fwmark := 0;
     SendThrough := "" |}.

(** The server [New] makes of [opts]. *)
Definition srv : Server :=
  {| dialer := FullconeDirect;
     tlsConfig := {| NextProtos := ["h3"]; MinVersionTLS13 := true;
                     Certificates := [tt] |};
     maxOpenIncomingStreams := 100;
     congestionControl := "bbr";
     cwnd := 10;
     users := <[ 1%N := "S1" ]> ∅;
     fwmark := 0 |}.

Definition world : World :=
  {| w_listen := fun _ => inr (ErrNew "listen: address already in use");
     w_dial := fun _ _ _ => inl 7%nat |}.

(** A world in which every dial runs into its deadline. *)
Definition slow_world : World :=
  {| w_listen := fun _ => inr (ErrNew "listen: address already in use");
     w_dial := fun _ _ _ => inr (ErrNet true "dial tcp: i/o timeout") |}.

(** A [tcp] request for [example.com:80] whose relay ends cleanly. *)
Definition tcp_stream : Stream :=
  {| st_header := inl {| Network := "tcp"; Hostname := "example.com"; Port := 80 |};
     st_relayTCP := fun _ => None;
     st_relayUoT := None |}.

Definition icmp_request : Metadata :=
  {| Network := "icmp"; Hostname := "example.com"; Port := 0 |}.

Definition icmp_stream : Stream :=
  {| st_header := inl icmp_request;
     st_relayTCP := fun _ => None;
     st_relayUoT := None |}.

(** A stream reset by the client before its header is complete. *)
Definition broken_stream : Stream :=
  {| st_header := inr ErrEOF;
     st_relayTCP := fun _ => None;
     st_relayUoT := None |}.

(** A control stream presenting identifier [id] and token [tok]. *)
Definition control (id : UUID) (tok : Token) : UniStream :=
  {| us_peek := inl 0;
     us_head := inl {| TYPE := 0 |};
     us_auth := inl {| auth_UUID := id; TOKEN := tok |} |}.

(** A connection that keeps delivering [streams] and whose control stream
    is [uni]; its TLS state is 5, so the token of [U1] is 5012. *)
Definition connection (uni : UniStream + error) (streams : list Stream) : Conn :=
  {| conn_id := 0;
     RemoteAddr := "192.0.2.1:4242";
     conn_state := 5%N;
     conn_uni := uni;
     conn_streams := streams;
     conn_accept_err := ErrNew "Application error 0x0 (remote)" |}.

(** The client opens one [tcp] stream and goes away without ever opening
    the control stream. *)
Definition hasty_conn : Conn :=
  connection (inr (ErrNew "Application error 0x0 (remote)")) [tcp_stream].

(** The client never opens the control stream: the ten seconds run out. *)
Definition silent_conn : Conn := connection (inr ErrDeadlineExceeded) [].

(** The right token for [U1], a wrong token for [U1], and an identifier
    that is not configured. *)
Definition good_conn : Conn := connection (inl (control 1%N 5012%N)) [].
Definition badtoken_conn : Conn := connection (inl (control 1%N 4711%N)) [].
Definition absent_conn : Conn := connection (inl (control 2%N 4711%N)) [].

(** The store after a successful and after a failed authentication. *)
Definition σ_open : Store := conn_set store0 good_conn (cancel_scope Auth fresh).
Definition σ_failed : Store := conn_set store0 good_conn (cancel_scope Root fresh).

(** The schedule of the hasty client.  Goroutine 0 is the connection's
    ([handleConn] under [Serve]), 1 its authentication goroutine, 2 the
    goroutine of its one stream.  [handleConn] sets the congestion control,
    starts the authentication goroutine, accepts the stream and starts its
    goroutine; the stream reads its header and waits at the gate;
    [AcceptStream] fails because the client is gone, [handleConn] returns and
    its deferred [authDone] runs.  Here the stream is released: it finds the
    root scope live, dials and relays.  Only then does the deferred [cancel]
    of [handleConn] run. *)
Definition race_opens_gate : list nat := [0; 0; 0; 0; 2; 0; 0; 2; 2; 2; 2; 2; 2; 2]%nat.

(** [handleConn] finishes and the authentication goroutine, which had not
    run yet, finds the root scope done and fails. *)
Definition race_auth_fails : list nat := [0; 0; 1; 1; 1; 1]%nat.

(** A wrong token: the authentication goroutine cancels the root scope,
    [AcceptStream] then fails with [context.Canceled], [handleConn] returns
    it, and the connection's goroutine logs it as a warning. *)
Definition rejected_schedule : list nat :=
  [0; 0; 1; 1; 1; 1; 1; 1; 1; 1; 0; 0; 0; 0]%nat.

(** Configurations with a malformed identifier and with a given
    [SendThrough], and the server [New] makes for the address 10.0.0.1. *)
Definition bad_user_opts : Options :=
  {| Users := [("U1", "S1"); ("not-a-uuid", "S2")];
     opt_Certificate := "cert.pem"; PrivateKey := "key.pem";
     CongestionControl := "bbr"; Fwmark := 0; SendThrough := "" |}.

Definition bound_opts (through : string) : Options :=
  {| Users := [("U1", "S1")];
     opt_Certificate := "cert.pem"; PrivateKey := "key.pem";
     CongestionControl := "bbr"; Fwmark := 0; SendThrough := through |}.

Definition bound_srv : Server :=
  {| dialer := NewDirectDialerLaddr true "10.0.0.1";
     tlsConfig := {| NextProtos := ["h3"]; MinVersionTLS13 := true;
                     Certificates := [tt] |};
     maxOpenIncomingStreams := 100;
     congestionControl := "bbr";
     cwnd := 10;
     users := <[ 1%N := "S1" ]> ∅;
     fwmark := 0 |}.

(** An authorised client with one [tcp] stream, and a schedule on which the
    authentication goroutine (1) finishes before the stream's goroutine (2)
    runs. *)
Definition served_conn : Conn := connection (inl (control 1%N 5012%N)) [tcp_stream].

Definition served_schedule : list nat :=
  [0; 0; 0; 0; 1; 1; 1; 1; 1; 2; 2; 2; 2; 2; 2; 2; 2]%nat.

(** A listener that delivers two connections and is then closed, and a
    world in which every address can be bound to it. *)
Definition demo_listener : Listener :=
  {| ln_conns := [good_conn; hasty_conn]; ln_err := ErrNew "server closed" |}.

Definition open_world : World :=
  {| w_listen := fun _ => inl demo_listener;
     w_dial := fun _ _ _ => inl 7%nat |}.

End Demo.

(** ** Proof automation *)

(** Unfolds a program down to its effects and runs it. *)
Ltac run_program :=
  unfold handleStream, handleAuth, authTask, streamTask, connTask, handleConn,
    defer, trigger, mbind, mret, proc_bind, proc_ret;
  cbn [run bind handle].

Ltac open_gate H :=
  destruct H as (Hhdr & [ea Hauth] & Hroot);
  run_program; rewrite Hhdr; cbn [run bind handle scope_err];
  rewrite Hauth, Hroot; cbn [run bind handle scope_err];
  rewrite (bool_decide_eq_false_2 (is_Some None)) by (intros [? ?]; discriminate);
  cbn [run bind handle].

Ltac auth_start := run_program.

Ltac auth_step H := rewrite H; cbn [run bind handle].

Section Properties.
Context `{Ext : Externals}.

(** ** Running programs *)

Lemma run_bind (w : World) {R S : Type} (p : proc R) (f : R -> proc S) (σ : Store) :
  run w (bind p f) σ =
  match run w p σ with
  | (Returned r, σ1, evs) =>
      let '(res, σ2, evs2) := run w (f r) σ1 in (res, σ2, (evs ++ evs2)%list)
  | (Blocked, σ1, evs) => (Blocked, σ1, evs)
  end.
Proof.
  revert σ. induction p as [r | A o k IH]; intros σ; simpl.
  - destruct (run w (f r) σ) as [[res σ2] evs2]. reflexivity.
  - destruct (handle w o σ) as [[[a σ'] gs] |]; [| reflexivity].
    rewrite IH. destruct (run w (k a) σ') as [[[r |] σ1] evs]; [| reflexivity].
    destruct (run w (f r) σ1) as [[res σ2] evs2]. reflexivity.
Qed.

Lemma run_mbind (w : World) {R S : Type} (p : proc R) (f : R -> proc S) (σ : Store) :
  run w (p ≫= f) σ =
  match run w p σ with
  | (Returned r, σ1, evs) =>
      let '(res, σ2, evs2) := run w (f r) σ1 in (res, σ2, (evs ++ evs2)%list)
  | (Blocked, σ1, evs) => (Blocked, σ1, evs)
  end.
Proof. apply run_bind. Qed.

Lemma cancel_scope_ok (c : scope) (cs : ConnShared) :
  scopes_ok cs -> scopes_ok (cancel_scope c cs).
Proof.
  unfold scopes_ok, cancel_scope.
  destruct c, cs as [[r|] [a|] cl n]; simpl; intros H Hr; eauto;
    try (destruct Hr as [? Hr]; discriminate).
Qed.

Lemma cancel_root_done (cs : ConnShared) :
  is_Some (root_err (cancel_scope Root cs)) ∧
  (scopes_ok cs -> is_Some (auth_err (cancel_scope Root cs))).
Proof.
  unfold scopes_ok, cancel_scope.
  destruct cs as [[r|] [a|] cl n]; simpl; split; eauto.
Qed.

Lemma cancel_auth_root (cs : ConnShared) :
  root_err (cancel_scope Auth cs) = root_err cs ∧
  is_Some (auth_err (cancel_scope Auth cs)) ∧
  closed (cancel_scope Auth cs) = closed cs.
Proof. unfold cancel_scope. destruct cs as [r [a|] cl n]; simpl; eauto. Qed.

Lemma conn_get_set (σ : Store) (conn : Conn) (cs : ConnShared) :
  conn_get (conn_set σ conn cs) conn = cs.
Proof. unfold conn_get, conn_set. simpl. by rewrite lookup_insert_eq. Qed.

Lemma conn_get_set_ne (σ : Store) (c1 c2 : Conn) (cs : ConnShared) :
  conn_id c1 ≠ conn_id c2 -> conn_get (conn_set σ c1 cs) c2 = conn_get σ c2.
Proof. intros H. unfold conn_get, conn_set. simpl. by rewrite lookup_insert_ne. Qed.

(** ** The stream dispatcher *)

Lemma handleStream_header_failure (w : World) (s : Server) (conn : Conn)
    (stream : Stream) (σ : Store) (err : error) :
  st_header stream = inr err ->
  run w (handleStream s conn stream) σ =
  (Returned (Some err), σ, [Ev (ReadHeader stream); Ev (StreamClose stream)]).
Proof. intros H. run_program. rewrite H. reflexivity. Qed.

Lemma handleStream_waits (w : World) (s : Server) (conn : Conn)
    (stream : Stream) (σ : Store) (mdata : Metadata) :
  st_header stream = inl mdata ->
  scope_err Auth (conn_get σ conn) = None ->
  run w (handleStream s conn stream) σ = (Blocked, σ, [Ev (ReadHeader stream)]).
Proof. intros H Ha. run_program. rewrite H. cbn [run bind handle]. rewrite Ha. reflexivity. Qed.

Lemma handleStream_gate_first (w : World) (s : Server) (conn : Conn)
    (stream : Stream) (σ : Store) (mdata : Metadata) :
  st_header stream = inl mdata ->
  is_Some (scope_err Auth (conn_get σ conn)) ->
  ∃ evs, events_of (run w (handleStream s conn stream) σ) =
         Ev (ReadHeader stream) :: Ev (Done conn Auth) :: Ev (PollDone conn Root) :: evs.
Proof.
  intros H [ea Ha]. run_program. rewrite H. cbn [run bind handle]. rewrite Ha.
  cbn [run bind handle].
  match goal with |- context [run w ?p σ] => destruct (run w p σ) as [[res σ'] evs] end.
  eexists. reflexivity.
Qed.

Lemma handleStream_gate_closed (w : World) (s : Server) (conn : Conn)
    (stream : Stream) (σ : Store) (mdata : Metadata) (e : error) :
  st_header stream = inl mdata ->
  is_Some (auth_err (conn_get σ conn)) ->
  root_err (conn_get σ conn) = Some e ->
  run w (handleStream s conn stream) σ =
  (Returned (Some e), σ,
   [Ev (ReadHeader stream); Ev (Done conn Auth); Ev (PollDone conn Root);
    Ev (CtxErr conn Root); Ev (StreamClose stream)]).
Proof.
  intros Hhdr [ea Hauth] Hroot.
  run_program. rewrite Hhdr. cbn [run bind handle scope_err].
  rewrite Hauth, Hroot. cbn [run bind handle scope_err].
  rewrite (bool_decide_eq_true_2 (is_Some (Some e))) by eauto.
  cbn [run bind handle scope_err]. rewrite Hroot. reflexivity.
Qed.

Lemma handleStream_unexpected_network (w : World) (s : Server) (conn : Conn)
    (stream : Stream) (σ : Store) (mdata : Metadata) :
  admitted conn stream σ mdata ->
  Network mdata ≠ "tcp" -> Network mdata ≠ "udp" ->
  run w (handleStream s conn stream) σ =
  (Returned (Some (unexpected_network mdata)), σ,
   [Ev (ReadHeader stream); Ev (Done conn Auth); Ev (PollDone conn Root);
    Ev (StreamClose stream)]).
Proof.
  intros H Htcp Hudp. open_gate H.
  apply String.eqb_neq in Htcp, Hudp. rewrite Htcp, Hudp. reflexivity.
Qed.

Lemma handleStream_dial_failure (w : World) (s : Server) (conn : Conn)
    (stream : Stream) (σ : Store) (mdata : Metadata) (err : error) :
  admitted conn stream σ mdata ->
  Network mdata = "tcp" ->
  w_dial w (dialer s) (MagicNetwork_Encode "tcp" (uint32 (fwmark s))) (target_of mdata)
    = inr err ->
  let r := run w (handleStream s conn stream) σ in
  result_of r = Returned (if is_net_timeout err then None else Some err) ∧
  store_of r = σ ∧
  existsb is_relay (events_of r) = false ∧
  existsb is_warn (events_of r) = false.
Proof.
  intros H Htcp Hdial. open_gate H.
  rewrite Htcp. cbn [String.eqb Ascii.eqb Bool.eqb run bind handle].
  unfold target_of in Hdial. rewrite Hdial.
  destruct (is_net_timeout err); cbn; auto.
Qed.

Lemma handleStream_tcp_relay (w : World) (s : Server) (conn : Conn)
    (stream : Stream) (σ : Store) (mdata : Metadata) (rConn : RConn) :
  admitted conn stream σ mdata ->
  Network mdata = "tcp" ->
  w_dial w (dialer s) (MagicNetwork_Encode "tcp" (uint32 (fwmark s))) (target_of mdata)
    = inl rConn ->
  let r := run w (handleStream s conn stream) σ in
  result_of r =
    Returned match st_relayTCP stream rConn with
             | None => None
             | Some err =>
                 if relay_ignored err then None
                 else Some (ErrWrap "relay tcp error" err)
             end ∧
  List.filter (fun e => is_dial e || is_relay e) (events_of r) =
    [Ev (Dial (dialer s) (MagicNetwork_Encode "tcp" (uint32 (fwmark s))) (target_of mdata));
     Ev (RelayTCP stream rConn)].
Proof.
  intros H Htcp Hdial. open_gate H.
  rewrite Htcp. cbn [String.eqb Ascii.eqb Bool.eqb run bind handle].
  unfold target_of in Hdial. rewrite Hdial. cbn [run bind handle].
  destruct (st_relayTCP stream rConn) as [err |]; [destruct (relay_ignored err) |];
    cbn; auto.
Qed.

Lemma handleStream_udp_relay (w : World) (s : Server) (conn : Conn)
    (stream : Stream) (σ : Store) (mdata : Metadata) :
  admitted conn stream σ mdata ->
  Network mdata = "udp" ->
  let r := run w (handleStream s conn stream) σ in
  result_of r =
    Returned match st_relayUoT stream with
             | None => None
             | Some err =>
                 if relay_ignored err then None
                 else Some (ErrWrap "relay udp error" err)
             end ∧
  List.filter (fun e => is_dial e || is_relay e) (events_of r) =
    [Ev (RelayUoT (dialer s) stream (fwmark s))].
Proof.
  intros H Hudp. open_gate H.
  rewrite Hudp. cbn [String.eqb Ascii.eqb Bool.eqb run bind handle].
  destruct (st_relayUoT stream) as [err |]; [destruct (relay_ignored err) |];
    cbn; auto.
Qed.

(** C10: a stream whose header cannot be read returns the read error at
    once, closing the stream and without any wait on the auth scope, whatever
    the state of the connection's scopes, so also while authentication is
    pending; a stream whose header was parsed always goes to the gate next:
    it stays blocked there while the auth scope is live, and once the scope is
    done its next effects are the wait and the check of the root scope. *)
Theorem C10_header_failure_skips_gate (w : World) (s : Server) (conn : Conn)
    (stream : Stream) (σ : Store) (err : error) :
  st_header stream = inr err ->
  run w (handleStream s conn stream) σ =
    (Returned (Some err), σ, [Ev (ReadHeader stream); Ev (StreamClose stream)]) ∧
  existsb is_wait (events_of (run w (handleStream s conn stream) σ)) = false ∧
  ∀ (parsed : Stream) (mdata : Metadata),
    st_header parsed = inl mdata ->
    match auth_err (conn_get σ conn) with
    | None =>
        run w (handleStream s conn parsed) σ = (Blocked, σ, [Ev (ReadHeader parsed)])
    | Some _ =>
        ∃ evs, events_of (run w (handleStream s conn parsed) σ) =
               Ev (ReadHeader parsed) :: Ev (Done conn Auth)
               :: Ev (PollDone conn Root) :: evs
    end.
Proof.
  intros H. rewrite (handleStream_header_failure w s conn stream σ err H).
  split; [reflexivity |]. split; [reflexivity |].
  intros parsed mdata Hp.
  destruct (auth_err (conn_get σ conn)) as [ea |] eqn:Ha.
  - apply (handleStream_gate_first w s conn parsed σ mdata Hp). simpl. rewrite Ha. eauto.
  - by apply (handleStream_waits w s conn parsed σ mdata).
Qed.

(** C9, as the code has it: a stream whose parsed network kind is neither
    "tcp" nor "udp" never reaches the dialer nor the relay; what it returns
    is decided at the gate first: it waits while the auth scope is live,
    returns the root scope's error when the root scope is done, and only
    otherwise fails with the unexpected-network error. *)
Theorem C9_unsupported_network (w : World) (s : Server) (conn : Conn)
    (stream : Stream) (σ : Store) (mdata : Metadata) :
  st_header stream = inl mdata ->
  Network mdata ≠ "tcp" -> Network mdata ≠ "udp" ->
  let r := run w (handleStream s conn stream) σ in
  existsb is_dial (events_of r) = false ∧
  existsb is_relay (events_of r) = false ∧
  result_of r =
    match auth_err (conn_get σ conn), root_err (conn_get σ conn) with
    | None, _ => Blocked
    | Some _, Some e => Returned (Some e)
    | Some _, None => Returned (Some (unexpected_network mdata))
    end.
Proof.
  intros Hhdr Htcp Hudp.
  destruct (auth_err (conn_get σ conn)) as [ea |] eqn:Ha.
  - destruct (root_err (conn_get σ conn)) as [e |] eqn:Hr; cbv zeta.
    + rewrite (handleStream_gate_closed w s conn stream σ mdata e);
        [auto | exact Hhdr | rewrite Ha; eauto | exact Hr].
    + rewrite (handleStream_unexpected_network w s conn stream σ mdata);
        [auto | | exact Htcp | exact Hudp].
      split; [exact Hhdr |]. rewrite Ha. eauto.
  - cbv zeta. rewrite (handleStream_waits w s conn stream σ mdata); auto.
Qed.

(** C6: for a stream admitted at the gate.  A "tcp" request whose dial
    fails with a timeout returns nil and no relay is started; any other dial
    failure is returned as it is.  A relay error of the TCP relay, and
    likewise of the UDP relay, that is [io.EOF], a network timeout or that
    ends in "with error code 0" gives nil; any other is returned wrapped,
    with the prefix "relay tcp error", respectively "relay udp error". *)
Theorem C6_dial_and_relay_outcomes (w : World) (s : Server) (conn : Conn)
    (stream : Stream) (σ : Store) (mdata : Metadata) :
  admitted conn stream σ mdata ->
  let r := run w (handleStream s conn stream) σ in
  let ignored err :=
    errors_Is err ErrEOF || is_net_timeout err
    || HasSuffix (Error err) "with error code 0" in
  (Network mdata = "tcp" ->
   match w_dial w (dialer s) (MagicNetwork_Encode "tcp" (uint32 (fwmark s)))
                (target_of mdata) with
   | inr err =>
       result_of r = Returned (if is_net_timeout err then None else Some err) ∧
       existsb is_relay (events_of r) = false
   | inl rConn =>
       result_of r =
         Returned match st_relayTCP stream rConn with
                  | None => None
                  | Some err =>
                      if ignored err then None
                      else Some (ErrWrap "relay tcp error" err)
                  end
   end) ∧
  (Network mdata = "udp" ->
   result_of r =
     Returned match st_relayUoT stream with
              | None => None
              | Some err =>
                  if ignored err then None
                  else Some (ErrWrap "relay udp error" err)
              end).
Proof.
  intros H. cbv zeta. split.
  - intros Htcp.
    destruct (w_dial w (dialer s) _ (target_of mdata)) as [rConn | err] eqn:Hd.
    + apply (handleStream_tcp_relay w s conn stream σ mdata rConn H Htcp Hd).
    + destruct (handleStream_dial_failure w s conn stream σ mdata err H Htcp Hd)
        as (Hr & _ & Hn & _). auto.
  - intros Hudp. apply (handleStream_udp_relay w s conn stream σ mdata H Hudp).
Qed.

(** ** Authentication *)

(** A parsed [authenticate] command: the four ways [handleAuth] ends. *)
Lemma handleAuth_presented (w : World) (s : Server) (σ : Store) (conn : Conn)
    (a : Authenticate) :
  presented σ conn a ->
  let r := run w (handleAuth s conn) σ in
  let failed := inr (ErrWrapV ErrAuthenticationFailed (fmt_uuid (auth_UUID a))) in
  (result_of r, store_of r) =
  match users s !! auth_UUID a with
  | None => (Returned failed, σ)
  | Some password =>
      match GenToken (conn_state conn) (auth_UUID a) password with
      | inr err => (Returned (inr (ErrWrap "GenToken" err)), σ)
      | inl token =>
          if N.eqb token (TOKEN a)
          then (Returned (inl (auth_UUID a)), σ)
          else (Returned failed,
                conn_set σ conn
                  (close_with AuthenticationFailed (Error ErrAuthenticationFailed)
                              (conn_get σ conn)))
      end
  end.
Proof.
  intros (u & h & Hu & Hv & Hh & Ht & Ha). cbv zeta.
  auth_start. auth_step Hu. auth_step Hv. rewrite Z.eqb_refl.
  cbn [run bind handle]. auth_step Hh. rewrite Ht, Z.eqb_refl.
  cbn [run bind handle]. auth_step Ha.
  destruct (users s !! auth_UUID a) as [password |]; [| reflexivity].
  destruct (GenToken (conn_state conn) (auth_UUID a) password) as [token | err];
    [| reflexivity].
  destruct (N.eqb token (TOKEN a)); reflexivity.
Qed.


Lemma handleAuth_presented_result (w : World) (s : Server) (σ : Store) (conn : Conn)
    (a : Authenticate) :
  presented σ conn a ->
  result_of (run w (handleAuth s conn) σ) =
  Returned
    match users s !! auth_UUID a with
    | None => inr (ErrWrapV ErrAuthenticationFailed (fmt_uuid (auth_UUID a)))
    | Some password =>
        match GenToken (conn_state conn) (auth_UUID a) password with
        | inr err => inr (ErrWrap "GenToken" err)
        | inl token =>
            if N.eqb token (TOKEN a) then inl (auth_UUID a)
            else inr (ErrWrapV ErrAuthenticationFailed (fmt_uuid (auth_UUID a)))
        end
    end.
Proof.
  intros Hp. pose proof (handleAuth_presented w s σ conn a Hp) as Hr. cbv zeta in Hr.
  apply (f_equal fst) in Hr. cbn [fst] in Hr. rewrite Hr.
  destruct (users s !! auth_UUID a) as [password |]; [| reflexivity].
  destruct (GenToken (conn_state conn) (auth_UUID a) password) as [token | err];
    [| reflexivity].
  destruct (N.eqb token (TOKEN a)); reflexivity.
Qed.

(** The failures of [handleAuth] before the body of the command is parsed. *)
Lemma handleAuth_accept_failure (w : World) (s : Server) (σ : Store) (conn : Conn)
    (e : error) :
  control_stream σ conn = inr e ->
  run w (handleAuth s conn) σ = (Returned (inr e), σ, [Ev (AcceptUniStream conn)]).
Proof. intros Hu. auth_start. auth_step Hu. reflexivity. Qed.

Lemma handleAuth_peek_failure (w : World) (s : Server) (σ : Store) (conn : Conn)
    (u : UniStream) (e : error) :
  control_stream σ conn = inl u -> us_peek u = inr e ->
  run w (handleAuth s conn) σ =
  (Returned (inr e), σ, [Ev (AcceptUniStream conn); Ev (Peek1 u)]).
Proof. intros Hu Hv. auth_start. auth_step Hu. auth_step Hv. reflexivity. Qed.

Lemma handleAuth_version (w : World) (s : Server) (σ : Store) (conn : Conn)
    (u : UniStream) (v : Z) :
  control_stream σ conn = inl u -> us_peek u = inl v -> v ≠ Version0 ->
  run w (handleAuth s conn) σ =
  (Returned (inr (ErrWrapV ErrUnexpectedVersion (fmt_bytes [v]))), σ,
   [Ev (AcceptUniStream conn); Ev (Peek1 u)]).
Proof.
  intros Hu Hv Hne. auth_start. auth_step Hu. auth_step Hv.
  apply Z.eqb_neq in Hne. rewrite Hne. reflexivity.
Qed.

Lemma handleAuth_head_failure (w : World) (s : Server) (σ : Store) (conn : Conn)
    (u : UniStream) (e : error) :
  control_stream σ conn = inl u -> us_peek u = inl Version0 -> us_head u = inr e ->
  run w (handleAuth s conn) σ =
  (Returned (inr (ErrWrap "ReadCommandHead" e)), σ,
   [Ev (AcceptUniStream conn); Ev (Peek1 u); Ev (ReadCommandHead u)]).
Proof.
  intros Hu Hv Hh. auth_start. auth_step Hu. auth_step Hv. rewrite Z.eqb_refl.
  cbn [run bind handle]. auth_step Hh. reflexivity.
Qed.

Lemma handleAuth_cmdtype (w : World) (s : Server) (σ : Store) (conn : Conn)
    (u : UniStream) (h : CommandHead) :
  control_stream σ conn = inl u -> us_peek u = inl Version0 -> us_head u = inl h ->
  TYPE h ≠ AuthenticateType ->
  run w (handleAuth s conn) σ =
  (Returned (inr (ErrWrapV ErrUnexpectedCmdType (fmt_cmdtype (TYPE h)))), σ,
   [Ev (AcceptUniStream conn); Ev (Peek1 u); Ev (ReadCommandHead u)]).
Proof.
  intros Hu Hv Hh Hne. auth_start. auth_step Hu. auth_step Hv. rewrite Z.eqb_refl.
  cbn [run bind handle]. auth_step Hh.
  apply Z.eqb_neq in Hne. rewrite Hne. reflexivity.
Qed.

Lemma handleAuth_body_failure (w : World) (s : Server) (σ : Store) (conn : Conn)
    (u : UniStream) (h : CommandHead) (e : error) :
  control_stream σ conn = inl u -> us_peek u = inl Version0 -> us_head u = inl h ->
  TYPE h = AuthenticateType -> us_auth u = inr e ->
  run w (handleAuth s conn) σ =
  (Returned (inr (ErrWrap "ReadAuthenticateWithHead" e)), σ,
   [Ev (AcceptUniStream conn); Ev (Peek1 u); Ev (ReadCommandHead u);
    Ev (ReadAuthenticateWithHead h u)]).
Proof.
  intros Hu Hv Hh Ht Ha. auth_start. auth_step Hu. auth_step Hv. rewrite Z.eqb_refl.
  cbn [run bind handle]. auth_step Hh. rewrite Ht, Z.eqb_refl.
  cbn [run bind handle]. auth_step Ha. reflexivity.
Qed.

Lemma handleAuth_success_iff (w : World) (s : Server) (σ : Store) (conn : Conn)
    (id : UUID) :
  result_of (run w (handleAuth s conn) σ) = Returned (inl id) ↔ authorised s σ conn id.
Proof.
  split.
  - intros H.
    destruct (control_stream σ conn) as [u | e] eqn:Hu;
      [| rewrite (handleAuth_accept_failure w s σ conn e Hu) in H; discriminate].
    destruct (us_peek u) as [v | e] eqn:Hv;
      [| rewrite (handleAuth_peek_failure w s σ conn u e Hu Hv) in H; discriminate].
    destruct (decide (v = Version0)) as [-> | Hne];
      [| rewrite (handleAuth_version w s σ conn u v Hu Hv Hne) in H; discriminate].
    destruct (us_head u) as [h | e] eqn:Hh;
      [| rewrite (handleAuth_head_failure w s σ conn u e Hu Hv Hh) in H; discriminate].
    destruct (decide (TYPE h = AuthenticateType)) as [Ht | Hne];
      [| rewrite (handleAuth_cmdtype w s σ conn u h Hu Hv Hh Hne) in H; discriminate].
    destruct (us_auth u) as [a | e] eqn:Ha;
      [| rewrite (handleAuth_body_failure w s σ conn u h e Hu Hv Hh Ht Ha) in H;
         discriminate].
    assert (Hp : presented σ conn a) by (exists u, h; auto).
    rewrite (handleAuth_presented_result w s σ conn a Hp) in H.
    destruct (users s !! auth_UUID a) as [password |] eqn:Hus; [| discriminate].
    destruct (GenToken (conn_state conn) (auth_UUID a) password) as [token | e] eqn:Hg;
      [| discriminate].
    destruct (N.eqb token (TOKEN a)) eqn:Heq; [| discriminate].
    injection H as Hid. apply N.eqb_eq in Heq. subst.
    exists a, password. auto.
  - intros (a & password & Hp & Hid & Hus & Hg). subst id.
    rewrite (handleAuth_presented_result w s σ conn a Hp), Hus, Hg, N.eqb_refl.
    reflexivity.
Qed.

(** C3, as the code has it: [handleAuth] succeeds, with the client
    identifier as identity, exactly when the control stream arrives with the
    recognised version byte and a well-formed authenticate command whose
    identifier is configured and whose token equals the derived one.  It fails
    with the unexpected-version error on another first byte, with the
    unexpected-command error on another command type, and with the
    authentication error on an absent identifier or a different token.  Every
    other way of not succeeding returns the error of the step that failed:
    accepting the control stream (the timeout among them) and reading its
    first byte as they are, reading the command head, reading the command body
    and deriving the token under the name of the step. *)
Theorem C3_handleAuth_outcome (w : World) (s : Server) (σ : Store) (conn : Conn) :
  let r := result_of (run w (handleAuth s conn) σ) in
  (∀ id, r = Returned (inl id) ↔ authorised s σ conn id) ∧
  (∀ u v, control_stream σ conn = inl u -> us_peek u = inl v -> v ≠ Version0 ->
     r = Returned (inr (ErrWrapV ErrUnexpectedVersion (fmt_bytes [v])))) ∧
  (∀ u h, control_stream σ conn = inl u -> us_peek u = inl Version0 ->
     us_head u = inl h -> TYPE h ≠ AuthenticateType ->
     r = Returned (inr (ErrWrapV ErrUnexpectedCmdType (fmt_cmdtype (TYPE h))))) ∧
  (∀ a, presented σ conn a ->
     users s !! auth_UUID a = None ∨
     (∃ password token, users s !! auth_UUID a = Some password ∧
        GenToken (conn_state conn) (auth_UUID a) password = inl token ∧
        token ≠ TOKEN a) ->
     r = Returned (inr (ErrWrapV ErrAuthenticationFailed (fmt_uuid (auth_UUID a))))) ∧
  (∀ e, control_stream σ conn = inr e -> r = Returned (inr e)) ∧
  (∀ u e, control_stream σ conn = inl u -> us_peek u = inr e -> r = Returned (inr e)) ∧
  (∀ u e, control_stream σ conn = inl u -> us_peek u = inl Version0 ->
     us_head u = inr e -> r = Returned (inr (ErrWrap "ReadCommandHead" e))) ∧
  (∀ u h e, control_stream σ conn = inl u -> us_peek u = inl Version0 ->
     us_head u = inl h -> TYPE h = AuthenticateType -> us_auth u = inr e ->
     r = Returned (inr (ErrWrap "ReadAuthenticateWithHead" e))) ∧
  (∀ a password e, presented σ conn a -> users s !! auth_UUID a = Some password ->
     GenToken (conn_state conn) (auth_UUID a) password = inr e ->
     r = Returned (inr (ErrWrap "GenToken" e))).
Proof.
  cbv zeta. repeat split.
  - apply handleAuth_success_iff.
  - apply handleAuth_success_iff.
  - intros u v Hu Hv Hne. by rewrite (handleAuth_version w s σ conn u v).
  - intros u h Hu Hv Hh Hne. by rewrite (handleAuth_cmdtype w s σ conn u h).
  - intros a Hp Hcase.
    rewrite (handleAuth_presented_result w s σ conn a Hp).
    destruct Hcase as [Hus | (password & token & Hus & Hg & Hne)].
    + rewrite Hus. reflexivity.
    + rewrite Hus, Hg. apply N.eqb_neq in Hne. rewrite Hne. reflexivity.
  - intros e Hu. by rewrite (handleAuth_accept_failure w s σ conn e).
  - intros u e Hu Hv. by rewrite (handleAuth_peek_failure w s σ conn u e).
  - intros u e Hu Hv Hh. by rewrite (handleAuth_head_failure w s σ conn u e).
  - intros u h e Hu Hv Hh Ht Ha.
    by rewrite (handleAuth_body_failure w s σ conn u h e).
  - intros a password e Hp Hus Hg.
    rewrite (handleAuth_presented_result w s σ conn a Hp), Hus, Hg. reflexivity.
Qed.

(** [handleAuth] always returns; the only thing it may change is the
    connection's close, on the token-mismatch path. *)
Lemma handleAuth_effect (w : World) (s : Server) (σ : Store) (conn : Conn) :
  ∃ r σ' evs,
    run w (handleAuth s conn) σ = (Returned r, σ', evs) ∧
    (σ' = σ ∨
     (∃ e, r = inr e) ∧
     σ' = conn_set σ conn
            (close_with AuthenticationFailed (Error ErrAuthenticationFailed)
                        (conn_get σ conn))).
Proof.
  destruct (control_stream σ conn) as [u | e] eqn:Hu;
    [| rewrite (handleAuth_accept_failure w s σ conn e Hu); eauto 6].
  destruct (us_peek u) as [v | e] eqn:Hv;
    [| rewrite (handleAuth_peek_failure w s σ conn u e Hu Hv); eauto 6].
  destruct (decide (v = Version0)) as [-> | Hne];
    [| rewrite (handleAuth_version w s σ conn u v Hu Hv Hne); eauto 6].
  destruct (us_head u) as [h | e] eqn:Hh;
    [| rewrite (handleAuth_head_failure w s σ conn u e Hu Hv Hh); eauto 6].
  destruct (decide (TYPE h = AuthenticateType)) as [Ht | Hne];
    [| rewrite (handleAuth_cmdtype w s σ conn u h Hu Hv Hh Hne); eauto 6].
  destruct (us_auth u) as [a | e] eqn:Ha;
    [| rewrite (handleAuth_body_failure w s σ conn u h e Hu Hv Hh Ht Ha); eauto 6].
  assert (Hp : presented σ conn a) by (exists u, h; auto).
  pose proof (handleAuth_presented w s σ conn a Hp) as Hr. cbv zeta in Hr.
  destruct (run w (handleAuth s conn) σ) as [[res σ'] evs].
  unfold result_of, store_of in Hr. cbn [fst snd] in Hr.
  destruct (users s !! auth_UUID a) as [password |];
    [| injection Hr as -> ->; eauto 6].
  destruct (GenToken (conn_state conn) (auth_UUID a) password) as [token | e];
    [| injection Hr as -> ->; eauto 6].
  destruct (N.eqb token (TOKEN a)); injection Hr as -> ->; eauto 8.
Qed.

Lemma cancel_scope_closed (c : scope) (cs : ConnShared) :
  closed (cancel_scope c cs) = closed cs.
Proof. unfold cancel_scope. destruct c, cs as [[r|] [a|] cl n]; reflexivity. Qed.

(** The goroutine around [handleAuth], from what [handleAuth] did. *)
Lemma authTask_run (w : World) (s : Server) (σ : Store) (conn : Conn)
    (r : UUID + error) (σ' : Store) (evs : list event) :
  run w (handleAuth s conn) σ = (Returned r, σ', evs) ->
  run w (authTask s conn) σ =
  match r with
  | inr err =>
      let σ1 := conn_set σ' conn (cancel_scope Root (conn_get σ' conn)) in
      (Returned tt,
       conn_set σ1 conn (close_with AuthenticationFailed "" (conn_get σ1 conn)),
       (evs ++ [Ev (Log Warn (Some err) [] "handleAuth"); Ev (Cancel conn Root);
                Ev (CloseWithError conn AuthenticationFailed "")])%list)
  | inl _ =>
      (Returned tt, conn_set σ' conn (cancel_scope Auth (conn_get σ' conn)),
       (evs ++ [Ev (Cancel conn Auth)])%list)
  end.
Proof.
  intros Hr. unfold authTask. rewrite run_mbind, Hr.
  destruct r as [id | err]; reflexivity.
Qed.

(** C2: when the authentication goroutine of [handleConn] finishes.  If
    [handleAuth] failed, the goroutine logs it, cancels the root scope, which
    leaves both the root scope and the auth scope derived from it done, and
    calls [CloseWithError] with the authentication-failure code, which is
    the close the peer gets unless the connection was closed before.  If
    [handleAuth] succeeded, the goroutine only calls [authDone]: the auth
    scope is done, the root scope and the connection's close are as they
    were. *)
Theorem C2_auth_task_outcome (w : World) (s : Server) (σ : Store) (conn : Conn) :
  scopes_ok (conn_get σ conn) ->
  let a := run w (handleAuth s conn) σ in
  let t := run w (authTask s conn) σ in
  let after := conn_get (store_of t) conn in
  match result_of a with
  | Returned (inr err) =>
      result_of t = Returned tt ∧
      is_Some (root_err after) ∧
      is_Some (auth_err after) ∧
      (closed (conn_get σ conn) = None ->
       ∃ reason, closed after = Some (AuthenticationFailed, reason)) ∧
      events_of t =
        (events_of a ++ [Ev (Log Warn (Some err) [] "handleAuth");
                         Ev (Cancel conn Root);
                         Ev (CloseWithError conn AuthenticationFailed "")])%list
  | Returned (inl _) =>
      result_of t = Returned tt ∧
      is_Some (auth_err after) ∧
      root_err after = root_err (conn_get σ conn) ∧
      closed after = closed (conn_get σ conn) ∧
      events_of t = (events_of a ++ [Ev (Cancel conn Auth)])%list
  | Blocked => False
  end.
Proof.
  intros Hok. cbv zeta.
  destruct (handleAuth_effect w s σ conn) as (r & σ' & evs & Hr & Hσ).
  rewrite (authTask_run w s σ conn r σ' evs Hr), Hr.
  assert (Hsc : root_err (conn_get σ' conn) = root_err (conn_get σ conn) ∧
                auth_err (conn_get σ' conn) = auth_err (conn_get σ conn)).
  { destruct Hσ as [-> | [_ ->]]; [auto |]. rewrite conn_get_set. auto. }
  destruct Hsc as [Hroot Hauth].
  assert (Hok' : scopes_ok (conn_get σ' conn)).
  { unfold scopes_ok. rewrite Hroot, Hauth. exact Hok. }
  unfold result_of, store_of, events_of. cbn [fst snd].
  destruct r as [id | err]; cbn [fst snd].
  - rewrite conn_get_set.
    destruct (cancel_auth_root (conn_get σ' conn)) as (Hr1 & Hr2 & Hr3).
    repeat split; auto; try congruence.
    rewrite Hr3. destruct Hσ as [-> | [[e He] _]]; [reflexivity | discriminate].
  - rewrite !conn_get_set.
    destruct (cancel_root_done (conn_get σ' conn)) as [Hr1 Hr2].
    repeat split; auto.
    intros Hcl. unfold close_with. cbn [closed]. rewrite cancel_scope_closed.
    destruct Hσ as [-> | [_ ->]].
    + rewrite Hcl. eauto.
    + rewrite conn_get_set. cbn [closed close_with]. rewrite Hcl. eauto.
Qed.

(** The close the peer observes after a failed authentication, on a
    connection not closed before: the absent identifier and the wrong token
    are told apart by the reason string. *)
Lemma authTask_close_reason (w : World) (s : Server) (σ : Store) (conn : Conn)
    (a : Authenticate) :
  presented σ conn a ->
  closed (conn_get σ conn) = None ->
  let after := conn_get (store_of (run w (authTask s conn) σ)) conn in
  (users s !! auth_UUID a = None ->
   closed after = Some (AuthenticationFailed, "")) ∧
  (∀ password token,
     users s !! auth_UUID a = Some password ->
     GenToken (conn_state conn) (auth_UUID a) password = inl token ->
     token ≠ TOKEN a ->
     closed after = Some (AuthenticationFailed, "authentication failed")).
Proof.
  intros Hp Hcl. cbv zeta.
  pose proof (handleAuth_presented w s σ conn a Hp) as Hr. cbv zeta in Hr.
  destruct (run w (handleAuth s conn) σ) as [[res σ'] evs] eqn:Hrun.
  unfold result_of, store_of in Hr. cbn [fst snd] in Hr.
  split.
  - intros Hus. rewrite Hus in Hr. injection Hr as -> ->.
    rewrite (authTask_run w s σ conn _ _ _ Hrun).
    unfold store_of. cbn [fst snd]. rewrite !conn_get_set.
    unfold close_with. cbn [closed]. rewrite cancel_scope_closed, Hcl. reflexivity.
  - intros password token Hus Hg Hne. rewrite Hus, Hg in Hr.
    apply N.eqb_neq in Hne. rewrite Hne in Hr. injection Hr as -> ->.
    rewrite (authTask_run w s σ conn _ _ _ Hrun).
    unfold store_of. cbn [fst snd]. rewrite !conn_get_set.
    unfold close_with. cbn [closed]. rewrite cancel_scope_closed. cbn [closed].
    rewrite Hcl. reflexivity.
Qed.

(** ** Connections and the listener *)

(** The goroutine around [handleConn], from what [handleConn] did. *)
Lemma connTask_run (w : World) (n : nat) (s : Server) (σ : Store) (conn : Conn) :
  run w (connTask n s conn) σ =
  match run w (handleConn n s conn) σ with
  | (Returned (Some err), σ', evs) =>
      (Returned tt, σ',
       (evs ++ if is_net_timeout err then []
               else [Ev (Log Warn (Some err) [] "")])%list)
  | (Returned None, σ', evs) => (Returned tt, σ', (evs ++ [])%list)
  | (Blocked, σ', evs) => (Blocked, σ', evs)
  end.
Proof.
  unfold connTask. rewrite run_mbind.
  destruct (run w (handleConn n s conn) σ) as [[[[err |] |] σ'] evs]; try reflexivity.
  destruct (is_net_timeout err); reflexivity.
Qed.

(** With the root scope done, [AcceptStream] fails with the scope's error
    and that is what [handleConn] returns. *)
Lemma handleConn_root_done (w : World) (n : nat) (s : Server) (σ : Store)
    (conn : Conn) (e : error) :
  root_err (conn_get σ conn) = Some e ->
  result_of (run w (handleConn (S n) s conn) σ) = Returned (Some e).
Proof.
  intros Hr. run_program. cbn [acceptLoop]. run_program. rewrite Hr. reflexivity.
Qed.

(** The accept loop of [Serve] leaves only with the listener's own failure. *)
Lemma serveLoop_result (w : World) (n : nat) (ln : Listener) (σ : Store) :
  result_of (run w (serveLoop n ln) σ) = Blocked ∨
  result_of (run w (serveLoop n ln) σ) = Returned (Some (ln_err ln)).
Proof.
  revert σ. induction n as [| n IH]; intros σ.
  - left. reflexivity.
  - cbn [serveLoop]. run_program.
    destruct (ln_conns ln !! ln_pos σ) as [conn |]; [| right; reflexivity].
    cbn [run bind handle].
    match goal with |- context [run w (serveLoop n ln) ?σ'] =>
      specialize (IH σ'); destruct (run w (serveLoop n ln) σ') as [[res σ''] evs]
    end.
    exact IH.
Qed.

(** A goroutine's step leaves the programs of all other goroutines as they
    are, whether it fails, returns or goes on. *)
Lemma step_frame (w : World) (s : Server) (n : nat) (i j : nat) (Σ Σ' : Sys) :
  step w s n i Σ = Some Σ' ->
  j ≠ i -> (j < length (threads Σ))%nat ->
  threads Σ' !! j = threads Σ !! j.
Proof.
  unfold step. intros H Hne Hlt.
  destruct (threads Σ !! i) as [[g [r | A o k]] |]; try discriminate.
  destruct (handle w o (store Σ)) as [[[a σ'] gs] |]; [| discriminate].
  injection H as <-. cbn [threads].
  rewrite lookup_app_l by (by rewrite length_insert).
  apply list_lookup_insert_ne. auto.
Qed.

(** An effect changes the shared state of its own connection only. *)
Lemma handle_other_conn (w : World) {A : Type} (o : op A) (σ σ' : Store) (a : A)
    (gs : list goroutine) (conn : Conn) :
  handle w o σ = Some (a, σ', gs) ->
  (∀ c, op_conn o = Some c -> conn_id c ≠ conn_id conn) ->
  conn_get σ' conn = conn_get σ conn.
Proof.
  intros H Hc.
  destruct o; cbn [handle] in H;
    repeat match type of H with
    | context [match ?x with _ => _ end] => destruct x
    end;
    try discriminate; injection H as <- <- <-; try reflexivity;
    apply conn_get_set_ne, Hc; reflexivity.
Qed.

(** The gate of a connection opens, that is its auth scope goes from live
    to done while its root scope stays live, only by a call of [authDone].
    The source has two: the authentication goroutine after a successful
    [handleAuth], and the deferred call that runs when [handleConn] returns. *)
Lemma gate_opened_by_authDone (w : World) {A : Type} (o : op A) (σ σ' : Store)
    (a : A) (gs : list goroutine) (conn : Conn) :
  handle w o σ = Some (a, σ', gs) ->
  auth_err (conn_get σ conn) = None ->
  is_Some (auth_err (conn_get σ' conn)) ->
  root_err (conn_get σ' conn) = None ->
  ∃ c, Ev o = Ev (Cancel c Auth) ∧ conn_id c = conn_id conn.
Proof.
  intros H Hlive Hdone Hroot.
  assert (Hsame : conn_get σ' conn = conn_get σ conn ->
                  ∃ c, Ev o = Ev (Cancel c Auth) ∧ conn_id c = conn_id conn).
  { intros Heq. rewrite Heq, Hlive in Hdone. destruct Hdone; discriminate. }
  destruct o; cbn [handle] in H;
    repeat match type of H with
    | context [match ?x with _ => _ end] => destruct x eqn:?
    end;
    try discriminate; injection H as <- <- <-; try (apply Hsame; reflexivity).
  - (* AcceptStream *)
    destruct (decide (conn_id conn0 = conn_id conn)) as [Heq | Hne];
      [| apply Hsame, conn_get_set_ne, Hne].
    unfold conn_get, conn_set in *. cbn [conns] in *.
    rewrite <- Heq, lookup_insert_eq in Hdone. cbn in Hdone.
    rewrite <- Heq in Hlive. rewrite Hlive in Hdone. destruct Hdone; discriminate.
  - (* CloseWithError *)
    destruct (decide (conn_id conn0 = conn_id conn)) as [Heq | Hne];
      [| apply Hsame, conn_get_set_ne, Hne].
    unfold conn_get, conn_set in *. cbn [conns] in *.
    rewrite <- Heq, lookup_insert_eq in Hdone. cbn in Hdone.
    rewrite <- Heq in Hlive. rewrite Hlive in Hdone. destruct Hdone; discriminate.
  - (* Cancel *)
    destruct (decide (conn_id conn0 = conn_id conn)) as [Heq | Hne];
      [| apply Hsame, conn_get_set_ne, Hne].
    destruct c; [| eauto].
    unfold conn_get, conn_set in *. cbn [conns] in *.
    rewrite <- Heq, lookup_insert_eq in Hroot. cbn in Hroot.
    unfold cancel_scope in Hroot. cbn in Hroot.
    destruct (root_err (default fresh (conns σ !! conn_id conn0))) eqn:Hr;
      cbn in Hroot; [| discriminate].
    rewrite Hr in Hroot. discriminate.
Qed.

(** C5, as the code has it: when [handleConn] returns an error, the
    goroutine [Serve] started for the connection logs a warning unless the
    error is a network timeout; the test knows no other exemption.  When the
    root scope is done, which is what a failed authentication leaves,
    [handleConn] returns that scope's error, [context.Canceled], which is not
    a timeout and so is logged.  The accept loop of [Serve] returns only the
    listener's own failure, and a step of one goroutine, whatever its outcome,
    leaves every other goroutine's program as it is. *)
Theorem C5_connection_failure_logging (w : World) (n : nat) (s : Server)
    (σ : Store) (conn : Conn) :
  let h := run w (handleConn n s conn) σ in
  let t := run w (connTask n s conn) σ in
  (∀ err, result_of h = Returned (Some err) ->
     result_of t = Returned tt ∧
     events_of t =
       (events_of h ++ if is_net_timeout err then []
                       else [Ev (Log Warn (Some err) [] "")])%list) ∧
  (∀ e, root_err (conn_get σ conn) = Some e -> (0 < n)%nat ->
     result_of h = Returned (Some e)) ∧
  is_net_timeout ErrCanceled = false ∧
  (∀ ln σ0, result_of (run w (serveLoop n ln) σ0) = Blocked ∨
            result_of (run w (serveLoop n ln) σ0) = Returned (Some (ln_err ln))) ∧
  (∀ i j Σ Σ', step w s n i Σ = Some Σ' -> j ≠ i -> (j < length (threads Σ))%nat ->
     threads Σ' !! j = threads Σ !! j).
Proof.
  cbv zeta. split; [| repeat split].
  - intros err H. rewrite connTask_run.
    destruct (run w (handleConn n s conn) σ) as [[res σ'] evs].
    unfold result_of, events_of in *. cbn [fst snd] in *. subst res.
    split; reflexivity.
  - intros e He Hn. destruct n as [| n']; [lia |].
    by apply handleConn_root_done.
  - apply serveLoop_result.
  - intros i j Σ Σ'. apply step_frame.
Qed.

(** ** Construction and listening parameters *)

Lemma headroom_exact_spec (n : nat) (x0 x : Z) :
  headroom_exact n x0 = true ->
  x0 <= x < x0 + Z.of_nat n ->
  add_headroom x = x + ceil_div x 10.
Proof.
  revert x0. induction n as [| n IH]; intros x0 H Hx; [lia |].
  cbn [headroom_exact] in H. apply andb_prop in H as [H1 H2].
  destruct (decide (x = x0)) as [-> | Hne]; [by apply Z.eqb_eq |].
  apply (IH (x0 + 1) H2). lia.
Qed.

Lemma add_headroom_small (x : Z) :
  0 <= x <= 10000 -> add_headroom x = x + ceil_div x 10.
Proof.
  intros Hx. apply (headroom_exact_spec (Z.to_nat 10001) 0); [| lia].
  vm_compute. reflexivity.
Qed.

Lemma parseUsers_error (l : list (string * string)) (acc : gmap UUID string) :
  (∃ err, parseUsers l acc = inr err) ↔
  (∃ _uuid password err, In (_uuid, password) l ∧ uuid_Parse _uuid = inr err).
Proof.
  revert acc. induction l as [| [u p] l IH]; intros acc; cbn [parseUsers].
  - split; [intros [err H]; discriminate | intros (? & ? & ? & [] & _)].
  - destruct (uuid_Parse u) as [id | e] eqn:Hu.
    + rewrite IH. split.
      * intros (u' & p' & e' & Hin & He). exists u', p', e'. split; [by right | done].
      * intros (u' & p' & e' & [Heq | Hin] & He).
        -- injection Heq as <- <-. congruence.
        -- exists u', p', e'. done.
    + split; [| eauto].
      intros _. exists u, p, e. split; [by left | done].
Qed.

(** C8: [New] fails exactly when a configured identifier does not parse as
    a UUID, or the certificate and key cannot be loaded, or a non-empty
    [SendThrough] does not parse as an address; when it succeeds the dialer
    is the full-cone direct dialer if [SendThrough] is empty and the dialer
    bound to the parsed address otherwise. *)
Theorem C8_New_outcome (opts : Options) :
  ((∃ err, New opts = inr err) ↔
   (∃ _uuid password err,
      In (_uuid, password) (Users opts) ∧ uuid_Parse _uuid = inr err) ∨
   (∃ err, LoadX509KeyPair (opt_Certificate opts) (PrivateKey opts) = inr err) ∨
   (SendThrough opts ≠ "" ∧ ∃ err, ParseAddr (SendThrough opts) = inr err)) ∧
  (∀ s, New opts = inl s ->
     (SendThrough opts = "" -> dialer s = FullconeDirect) ∧
     (SendThrough opts ≠ "" ->
      ∃ lAddr, ParseAddr (SendThrough opts) = inl lAddr ∧
               dialer s = NewDirectDialerLaddr true lAddr)).
Proof.
  pose proof (parseUsers_error (Users opts) ∅) as Hpu.
  unfold New.
  destruct (parseUsers (Users opts) ∅) as [us | e0] eqn:Hp.
  2:{ split; [| intros s' H; discriminate].
      split; [intros _; left; apply Hpu; eauto | eauto]. }
  assert (Hno : ¬ ∃ _uuid password err,
              In (_uuid, password) (Users opts) ∧ uuid_Parse _uuid = inr err).
  { intros H. apply Hpu in H as [err H]. discriminate. }
  destruct (LoadX509KeyPair (opt_Certificate opts) (PrivateKey opts)) as [cert | e1].
  2:{ split; [| intros s' H; discriminate].
      split; [intros _; right; left; eauto | eauto]. }
  destruct (String.eqb (SendThrough opts) "") eqn:Hs.
  - apply String.eqb_eq in Hs. split.
    + split; [intros [err H]; discriminate |].
      intros [H | [[err H] | [H _]]]; [by destruct Hno | discriminate | done].
    + intros s' H. injection H as <-. split; [done | intros Hne; done].
  - apply String.eqb_neq in Hs.
    destruct (ParseAddr (SendThrough opts)) as [lAddr | e2].
    + split.
      * split; [intros [err H]; discriminate |].
        intros [H | [[err H] | [_ [err H]]]];
          [by destruct Hno | discriminate | discriminate].
      * intros s' H. injection H as <-. split; [done | eauto].
    + split; [| intros s' H; discriminate].
      split; [intros _; right; right; eauto | eauto].
Qed.

(** C7: the limit on incoming bidirectional streams that [Serve] hands to
    the listener is the server's limit plus the ceiling of a tenth of it, and
    the limit on unidirectional streams is the same value; a server made by
    [New] has the limit 100, so both are 110. *)
Theorem C7_advertised_stream_limits (w : World) (n : nat) (s : Server)
    (addr : string) (σ : Store) :
  (∃ evs, events_of (run w (Serve n s addr) σ) =
          Ev (ListenAddr addr (tlsConfig s) (Serve_config s)) :: evs) ∧
  MaxIncomingUniStreams (Serve_config s) = MaxIncomingStreams (Serve_config s) ∧
  (0 <= maxOpenIncomingStreams s <= 10000 ->
   MaxIncomingStreams (Serve_config s) =
   maxOpenIncomingStreams s + ceil_div (maxOpenIncomingStreams s) 10) ∧
  (∀ opts, New opts = inl s ->
     maxOpenIncomingStreams s = 100 ∧
     MaxIncomingStreams (Serve_config s) = 110 ∧
     MaxIncomingUniStreams (Serve_config s) = 110).
Proof.
  repeat split.
  - unfold Serve. run_program.
    destruct (w_listen w addr) as [ln | e]; cbn [run].
    + destruct (run w (serveLoop n ln) σ) as [[res σ'] evs]. eexists. reflexivity.
    + eexists. reflexivity.
  - intros [H1 H2]. cbn [Serve_config MaxIncomingStreams]. by apply add_headroom_small.
  - unfold New in H.
    destruct (parseUsers (Users opts) ∅); [| discriminate].
    destruct (LoadX509KeyPair _ _); [| discriminate].
    destruct (String.eqb _ _); [injection H as <-; reflexivity |].
    destruct (ParseAddr _); [injection H as <-; reflexivity | discriminate].
  - unfold New in H.
    destruct (parseUsers (Users opts) ∅); [| discriminate].
    destruct (LoadX509KeyPair _ _); [| discriminate].
    destruct (String.eqb _ _); [injection H as <-; vm_compute; reflexivity |].
    destruct (ParseAddr _); [injection H as <-; vm_compute; reflexivity | discriminate].
  - unfold New in H.
    destruct (parseUsers (Users opts) ∅); [| discriminate].
    destruct (LoadX509KeyPair _ _); [| discriminate].
    destruct (String.eqb _ _); [injection H as <-; vm_compute; reflexivity |].
    destruct (ParseAddr _); [injection H as <-; vm_compute; reflexivity | discriminate].
Qed.

(** ** Reading a trace *)

Lemma scopes_ok_fresh (conn : Conn) : scopes_ok (conn_get store0 conn).
Proof.
  unfold scopes_ok, conn_get, store0. cbn [conns]. rewrite lookup_empty.
  intros [e H]. discriminate.
Qed.

(** ** The gate under every schedule *)

Lemma never_bind {R S : Type} (P : event -> bool) (p : proc R) (f : R -> proc S) :
  never P p -> (∀ r, never P (f r)) -> never P (bind p f).
Proof.
  intros Hp Hf. induction p as [r | A o k IH]; cbn [bind never] in *; [apply Hf |].
  destruct Hp as [Ho Hk]. split; [exact Ho |]. intros a. apply IH, Hk.
Qed.

(** Walks a program built from binds, effects and case distinctions. *)
Ltac never_walk :=
  repeat first
    [ exact I
    | assumption
    | progress cbn [never bind]
    | progress unfold trigger
    | apply never_bind
    | match goal with
      | |- _ ∧ _ => split
      | |- ∀ _, _ => intro
      | |- _ = _ => reflexivity
      | |- never _ (match ?x with _ => _ end) => destruct x
      | |- never _ (if ?b then _ else _) => destruct b
      end ].

Lemma never_outbound_handleAuth (s : Server) (conn : Conn) :
  never is_outbound (handleAuth s conn).
Proof.
  unfold handleAuth, trigger, mbind, mret, proc_bind, proc_ret. never_walk.
Qed.

Lemma never_outbound_authTask (s : Server) (conn : Conn) :
  never is_outbound (authTask s conn).
Proof.
  unfold authTask, mbind, proc_bind. apply never_bind.
  - apply never_outbound_handleAuth.
  - intros r. unfold trigger, mbind, mret, proc_bind, proc_ret. never_walk.
Qed.

Lemma never_outbound_acceptLoop (n : nat) (conn : Conn) :
  never is_outbound (acceptLoop n conn).
Proof.
  induction n as [| n IH]; cbn [acceptLoop].
  - unfold forever. cbn [never]. split; [reflexivity | intros []].
  - unfold trigger, mbind, mret, proc_bind, proc_ret. cbn [bind never].
    split; [reflexivity |]. intros [stream | err]; cbn [bind never]; [| exact I].
    split; [reflexivity |]. intros _. exact IH.
Qed.

Lemma never_outbound_connTask (n : nat) (s : Server) (conn : Conn) :
  never is_outbound (connTask n s conn).
Proof.
  pose proof (never_outbound_acceptLoop n conn).
  unfold connTask, handleConn, defer, trigger, mbind, mret, proc_bind, proc_ret.
  never_walk.
Qed.

(** The scopes of a connection never go back to live. *)
Lemma handle_scopes_mono (w : World) {A : Type} (o : op A) (σ σ' : Store) (a : A)
    (gs : list goroutine) (conn : Conn) :
  handle w o σ = Some (a, σ', gs) ->
  (is_Some (root_err (conn_get σ conn)) -> is_Some (root_err (conn_get σ' conn))) ∧
  (is_Some (auth_err (conn_get σ conn)) -> is_Some (auth_err (conn_get σ' conn))).
Proof.
  intros H.
  assert (Hsame : conn_get σ' conn = conn_get σ conn ->
    (is_Some (root_err (conn_get σ conn)) -> is_Some (root_err (conn_get σ' conn))) ∧
    (is_Some (auth_err (conn_get σ conn)) -> is_Some (auth_err (conn_get σ' conn)))).
  { intros ->. auto. }
  destruct o; cbn [handle] in H;
    repeat match type of H with
    | context [match ?x with _ => _ end] => destruct x eqn:?
    end;
    try discriminate; injection H as <- <- <-; try (apply Hsame; reflexivity);
    (destruct (decide (conn_id conn0 = conn_id conn)) as [Heq | Hne];
       [| apply Hsame, conn_get_set_ne, Hne]);
    unfold conn_get, conn_set; cbn [conns]; rewrite <- Heq, lookup_insert_eq;
    cbn [default accept_next close_with root_err auth_err]; auto.
  (* Cancel *)
  unfold cancel_scope.
  destruct c, (default fresh (conns σ !! conn_id conn0)) as [[r |] [au |] cl k];
    cbn; split; eauto.
Qed.

(** A done root scope with a live auth scope never arises. *)
Lemma handle_scopes_ok (w : World) {A : Type} (o : op A) (σ σ' : Store) (a : A)
    (gs : list goroutine) (conn : Conn) :
  handle w o σ = Some (a, σ', gs) ->
  scopes_ok (conn_get σ conn) -> scopes_ok (conn_get σ' conn).
Proof.
  intros H Hok.
  assert (Hsame : conn_get σ' conn = conn_get σ conn -> scopes_ok (conn_get σ' conn))
    by (by intros ->).
  destruct o; cbn [handle] in H;
    repeat match type of H with
    | context [match ?x with _ => _ end] => destruct x eqn:?
    end;
    try discriminate; injection H as <- <- <-; try (apply Hsame; reflexivity);
    (destruct (decide (conn_id conn0 = conn_id conn)) as [Heq | Hne];
       [| apply Hsame, conn_get_set_ne, Hne]);
    assert (Hget : conn_get σ conn0 = conn_get σ conn)
      by (unfold conn_get; by rewrite Heq);
    unfold conn_get at 1, conn_set; cbn [conns]; rewrite <- Heq, lookup_insert_eq;
    cbn [default]; rewrite ?Hget.
  - exact Hok.
  - exact Hok.
  - by apply cancel_scope_ok.
Qed.

Lemma opened_app (conn : Conn) (tr tr' : list (nat * event)) :
  opened conn tr = true -> opened conn (tr ++ tr') = true.
Proof. unfold opened. rewrite existsb_app. intros ->. reflexivity. Qed.

Lemma performed_snoc (i j : nat) (P : event -> bool) (tr : list (nat * event))
    (e : event) :
  performed i P (tr ++ [(j, e)]) = performed i P tr || (Nat.eqb j i && P e).
Proof. unfold performed. rewrite existsb_app. cbn. by rewrite orb_false_r. Qed.

(** The three effects of a stream's goroutine up to the gate. *)
Lemma streamTask_shape (s : Server) (conn : Conn) (stream : Stream) :
  ∃ k, streamTask s conn stream = Vis (ReadHeader stream) k ∧
       (∀ mdata, k (inl mdata) = at_wait s conn stream mdata) ∧
       (∀ err, never is_outbound (k (inr err))).
Proof.
  eexists. split; [reflexivity |]. split; [reflexivity |].
  intros err. cbn. never_walk.
Qed.

Lemma at_wait_shape (s : Server) (conn : Conn) (stream : Stream) (mdata : Metadata) :
  ∃ k, at_wait s conn stream mdata = Vis (Done conn Auth) k ∧
       k tt = at_check s conn stream mdata.
Proof. eexists. split; reflexivity. Qed.

Lemma at_check_shape (s : Server) (conn : Conn) (stream : Stream) (mdata : Metadata) :
  ∃ k, at_check s conn stream mdata = Vis (PollDone conn Root) k ∧
       never is_outbound (k true).
Proof. eexists. split; [reflexivity |]. cbn. never_walk. Qed.

Lemma position_body (s : Server) (n : nat) (σ : Store) (tr : list (nat * event))
    (g : goroutine) :
  position s σ tr (g, body s n g).
Proof.
  unfold position. destruct g; cbn [fst snd body].
  - apply never_outbound_connTask.
  - apply never_outbound_authTask.
  - left. reflexivity.
Qed.

Lemma position_mono (w : World) (s : Server) {A : Type} (o : op A) (σ σ' : Store)
    (a : A) (gs : list goroutine) (tr tr' : list (nat * event))
    (gp : goroutine * proc unit) :
  handle w o σ = Some (a, σ', gs) ->
  position s σ tr gp -> position s σ' (tr ++ tr') gp.
Proof.
  intros H. unfold position. destruct gp.1 as [conn | conn | conn stream]; auto.
  intros [Hp | [Hp | [(mdata & Hp & Hau) | [Hp | Hp]]]]; auto.
  - right. right. left. exists mdata. split; [exact Hp |].
    by apply (handle_scopes_mono w o σ σ' a gs conn H).
  - right. right. right. right. by apply opened_app.
Qed.

Lemma performed_fresh (j : nat) (P : event -> bool) (tr : list (nat * event)) :
  (∀ i e, In (i, e) tr -> (i < j)%nat) -> performed j P tr = false.
Proof.
  intros H. unfold performed. apply not_true_is_false. intros Hex.
  apply existsb_exists in Hex as ([i e] & Hin & Hb). cbn [fst snd] in Hb.
  apply andb_prop in Hb as [Hij _]. apply Nat.eqb_eq in Hij. subst i.
  specialize (H j e Hin). lia.
Qed.

(** One step of goroutine [i], given where it stands afterwards and that
    an outbound call is made behind an opened gate only. *)
Lemma advance (w : World) (s : Server) (n : nat) (Σ : Sys) (i : nat)
    (g : goroutine) {A : Type} (o : op A) (k : A -> proc unit) (a : A)
    (σ' : Store) (gs : list goroutine) :
  invariant s Σ ->
  threads Σ !! i = Some (g, Vis o k) ->
  handle w o (store Σ) = Some (a, σ', gs) ->
  position s σ' (trace Σ ++ [(i, Ev o)]) (g, k a) ->
  (is_outbound (Ev o) = true ->
   ∃ conn stream, g = GoStream conn stream ∧ opened conn (trace Σ) = true) ->
  invariant s {| store := σ';
                 threads := <[i := (g, k a)]> (threads Σ)
                            ++ map (fun g' => (g', body s n g')) gs;
                 trace := trace Σ ++ [(i, Ev o)] |}.
Proof.
  intros (HJ & Hidx & Hst) Hth Hh Hpos Hout.
  assert (Hi : (i < length (threads Σ))%nat) by (eapply lookup_lt_Some; eauto).
  unfold invariant. cbn [store threads trace]. split; [| split].
  - (* gates *)
    intros conn Hau Hroot.
    destruct (handle_scopes_mono w o (store Σ) σ' a gs conn Hh) as [Hr _].
    assert (Hroot0 : root_err (conn_get (store Σ) conn) = None).
    { destruct (root_err (conn_get (store Σ) conn)) eqn:E; [| reflexivity].
      destruct Hr as [e' He']; [eauto |]. congruence. }
    destruct (auth_err (conn_get (store Σ) conn)) eqn:Ha.
    + apply opened_app, HJ; [rewrite Ha; eauto | exact Hroot0].
    + destruct (gate_opened_by_authDone w o (store Σ) σ' a gs conn Hh Ha Hau Hroot)
        as (c & Hev & Hid).
      unfold opened. rewrite existsb_app. apply orb_true_intro. right.
      cbn [existsb snd]. rewrite Hev. cbn [is_authDone].
      apply Nat.eqb_eq in Hid. rewrite Hid. reflexivity.
  - (* thread indices *)
    intros j e Hin. rewrite length_app, length_insert.
    apply in_app_or in Hin as [Hin | [Heq | []]].
    + specialize (Hidx j e Hin). lia.
    + injection Heq as <- _. lia.
  - (* goroutines *)
    intros j gp Hj.
    destruct (decide (j < length (threads Σ))%nat) as [Hlt | Hge].
    + rewrite lookup_app_l in Hj by (by rewrite length_insert).
      destruct (decide (j = i)) as [-> | Hne].
      * rewrite list_lookup_insert_eq in Hj by exact Hi. injection Hj as <-.
        split; [exact Hpos |].
        rewrite performed_snoc, Nat.eqb_refl. cbn [andb fst].
        intros Hp. apply orb_prop in Hp as [Hp | Hp].
        -- destruct (Hst i _ Hth) as [_ Hold].
           destruct (Hold Hp) as (conn & stream & Hg & Hop).
           exists conn, stream. split; [exact Hg | by apply opened_app].
        -- destruct (Hout Hp) as (conn & stream & Hg & Hop).
           exists conn, stream. split; [exact Hg | by apply opened_app].
      * rewrite list_lookup_insert_ne in Hj by auto.
        destruct (Hst j gp Hj) as [Hposj Hold]. split.
        -- by apply (position_mono w s o (store Σ) σ' a gs).
        -- rewrite performed_snoc.
           assert (Hij : Nat.eqb i j = false) by (apply Nat.eqb_neq; auto).
           rewrite Hij. cbn [andb]. rewrite orb_false_r. intros Hp.
           destruct (Hold Hp) as (conn & stream & Hg & Hop).
           exists conn, stream. split; [exact Hg | by apply opened_app].
    + rewrite lookup_app_r in Hj by (rewrite length_insert; lia).
      apply list_elem_of_lookup_2, list_elem_of_In, in_map_iff in Hj
        as (g' & <- & _).
      split; [apply position_body |].
      rewrite performed_fresh; [discriminate |].
      intros i' e Hin. apply in_app_or in Hin as [Hin | [Heq | []]].
      * specialize (Hidx i' e Hin). lia.
      * injection Heq as <- _. lia.
Qed.

Lemma invariant_start (s : Server) (n : nat) (g : goroutine) :
  invariant s (start s n g).
Proof.
  unfold invariant, start. cbn [store threads trace]. split; [| split].
  - intros conn [e He]. unfold conn_get, store0 in He. cbn [conns] in He.
    rewrite lookup_empty in He. discriminate.
  - intros i e [].
  - intros [| i] gp Hi; [| discriminate]. injection Hi as <-.
    split; [apply position_body | discriminate].
Qed.

Lemma step_invariant (w : World) (s : Server) (n : nat) (i : nat) (Σ Σ' : Sys) :
  step w s n i Σ = Some Σ' -> invariant s Σ -> invariant s Σ'.
Proof.
  intros Hstep Hinv. pose proof Hinv as (HJ & Hidx & Hst).
  unfold step in Hstep.
  destruct (threads Σ !! i) as [[g p] |] eqn:Hth; [| discriminate].
  destruct (Hst i _ Hth) as [Hpos _].
  (* a goroutine in a part of its program without outbound calls *)
  assert (Hnever : never is_outbound p -> invariant s Σ').
  { intros Hp. destruct p as [r | A o k]; [discriminate |].
    destruct (handle w o (store Σ)) as [[[a σ'] gs] |] eqn:Hh; [| discriminate].
    injection Hstep as <-. destruct Hp as [Ho Hk].
    apply (advance w s n Σ i g o k a σ' gs Hinv Hth Hh).
    - unfold position. cbn [fst snd].
      destruct g; [apply Hk | apply Hk |]. right. right. right. left. apply Hk.
    - rewrite Ho. discriminate. }
  unfold position in Hpos. cbn [fst snd] in Hpos.
  destruct g as [conn | conn | conn stream];
    [by apply Hnever | by apply Hnever |].
  destruct Hpos as [Hp | [(mdata & Hp) | [(mdata & Hp & Hau) | [Hp | Hop]]]].
  - (* reading the header *)
    destruct (streamTask_shape s conn stream) as (k & Hk & Hwait & Hrej).
    rewrite Hp, Hk in Hstep, Hth. cbn [handle] in Hstep. injection Hstep as <-.
    apply (advance w s n Σ i _ (ReadHeader stream) k (st_header stream) (store Σ) []
                   Hinv Hth eq_refl); [| discriminate].
    unfold position. cbn [fst snd].
    destruct (st_header stream) as [mdata | err].
    + right. left. exists mdata. apply Hwait.
    + right. right. right. left. apply Hrej.
  - (* waiting for the auth scope *)
    destruct (at_wait_shape s conn stream mdata) as (k & Hk & Hcheck).
    rewrite Hp, Hk in Hstep, Hth. cbn [handle scope_err] in Hstep.
    destruct (auth_err (conn_get (store Σ) conn)) as [e |] eqn:Hau; [| discriminate].
    injection Hstep as <-.
    apply (advance w s n Σ i _ (Done conn Auth) k tt (store Σ) [] Hinv Hth);
      [cbn [handle scope_err]; by rewrite Hau | | discriminate].
    unfold position. cbn [fst snd].
    right. right. left. exists mdata. split; [exact Hcheck |]. rewrite Hau. eauto.
  - (* looking at the root scope *)
    destruct (at_check_shape s conn stream mdata) as (k & Hk & Hrej).
    rewrite Hp, Hk in Hstep, Hth. cbn [handle scope_err] in Hstep.
    injection Hstep as <-.
    apply (advance w s n Σ i _ (PollDone conn Root) k _ (store Σ) [] Hinv Hth eq_refl);
      [| discriminate].
    unfold position. cbn [fst snd scope_err].
    destruct (root_err (conn_get (store Σ) conn)) as [e |] eqn:Hroot.
    + rewrite (bool_decide_eq_true_2 (is_Some (Some e))) by eauto.
      right. right. right. left. exact Hrej.
    + right. right. right. right. apply opened_app, HJ; auto.
  - by apply Hnever.
  - (* behind the gate *)
    destruct p as [r | A o k]; [discriminate |].
    destruct (handle w o (store Σ)) as [[[a σ'] gs] |] eqn:Hh; [| discriminate].
    injection Hstep as <-.
    apply (advance w s n Σ i _ o k a σ' gs Hinv Hth Hh).
    + unfold position. cbn [fst snd]. right. right. right. right.
      by apply opened_app.
    + intros _. eauto.
Qed.

Lemma exec_invariant (w : World) (s : Server) (n : nat) (sched : list nat)
    (Σ Σ' : Sys) :
  exec w s n sched Σ = Some Σ' -> invariant s Σ -> invariant s Σ'.
Proof.
  revert Σ. induction sched as [| i sched IH]; intros Σ H Hinv; cbn [exec] in H.
  - by injection H as <-.
  - destruct (step w s n i Σ) as [Σ1 |] eqn:Hs; [| discriminate].
    apply (IH Σ1 H). by apply (step_invariant w s n i Σ).
Qed.

(** X1: under every schedule, from the start of any goroutine of the server:
    a goroutine that called the dialer or a relay is a stream's, and
    [authDone] had been called for the stream's connection. *)
Theorem outbound_only_after_authDone (w : World) (s : Server) (n : nat)
    (g : goroutine) (sched : list nat) (Σ : Sys) (i : nat) :
  exec w s n sched (start s n g) = Some Σ ->
  performed i is_outbound (trace Σ) = true ->
  ∃ p conn stream,
    threads Σ !! i = Some (GoStream conn stream, p) ∧
    opened conn (trace Σ) = true.
Proof.
  intros Hex Hp.
  pose proof (exec_invariant w s n sched _ _ Hex (invariant_start s n g))
    as (_ & Hidx & Hst).
  assert (Hi : (i < length (threads Σ))%nat).
  { unfold performed in Hp. apply existsb_exists in Hp as ([j e] & Hin & Hb).
    cbn [fst snd] in Hb. apply andb_prop in Hb as [Hj _].
    apply Nat.eqb_eq in Hj. subst j. by apply (Hidx i e). }
  destruct (lookup_lt_is_Some_2 _ _ Hi) as [[g' p] Hth].
  destruct (Hst i _ Hth) as [_ Hout].
  destruct (Hout Hp) as (conn & stream & Hg & Hop). cbn [fst] in Hg. subst g'.
  eauto.
Qed.

(** A stream's goroutine never calls a cancel function: [authDone] is
    called by the authentication goroutine after a successful [handleAuth]
    (see [authTask_run]) or by the deferred call of [handleConn]. *)
Lemma never_cancel_streamTask (s : Server) (conn : Conn) (stream : Stream) :
  never (fun e => match e with Ev (Cancel _ _) => true | _ => false end)
        (streamTask s conn stream).
Proof.
  unfold streamTask, handleStream, defer, trigger, mbind, mret, proc_bind, proc_ret.
  never_walk.
Qed.

(** ** More on the stream dispatcher *)

(** Every program of the dispatcher logs no warning and leaves the store
    as it is: it reads the scopes, it never writes them. *)
Lemma never_warn_handleStream (s : Server) (conn : Conn) (stream : Stream) :
  never is_warn (handleStream s conn stream).
Proof.
  unfold handleStream, defer, trigger, mbind, mret, proc_bind, proc_ret. never_walk.
Qed.

Lemma run_never (w : World) {R : Type} (P : event -> bool) (p : proc R) (σ : Store) :
  never P p -> existsb P (events_of (run w p σ)) = false.
Proof.
  revert σ. induction p as [r | A o k IH]; intros σ H; cbn [run never] in *.
  - reflexivity.
  - destruct H as [Ho Hk].
    destruct (handle w o σ) as [[[a σ'] gs] |]; [| reflexivity].
    specialize (IH a σ' (Hk a)).
    destruct (run w (k a) σ') as [[res σ''] evs].
    unfold events_of in *. cbn [snd existsb] in *. by rewrite Ho, IH.
Qed.

Lemma handleStream_runs (w : World) (s : Server) (conn : Conn) (stream : Stream)
    (σ : Store) :
  store_of (run w (handleStream s conn stream) σ) = σ ∧
  stream_run w s conn stream σ
    (result_of (run w (handleStream s conn stream) σ))
    (events_of (run w (handleStream s conn stream) σ)).
Proof.
  destruct (st_header stream) as [mdata | err] eqn:Hhdr.
  2:{ rewrite (handleStream_header_failure w s conn stream σ err Hhdr).
      split; [reflexivity | by apply sr_header]. }
  destruct (auth_err (conn_get σ conn)) as [ea |] eqn:Hauth.
  2:{ rewrite (handleStream_waits w s conn stream σ mdata Hhdr Hauth).
      split; [reflexivity | by apply (sr_waiting w s conn stream σ mdata)]. }
  destruct (root_err (conn_get σ conn)) as [e |] eqn:Hroot.
  { rewrite (handleStream_gate_closed w s conn stream σ mdata e Hhdr);
      [| rewrite Hauth; eauto | exact Hroot].
    split; [reflexivity |].
    apply (sr_rejected w s conn stream σ mdata e Hhdr); [rewrite Hauth; eauto | exact Hroot]. }
  assert (Hadm : admitted conn stream σ mdata).
  { split; [exact Hhdr |]. split; [rewrite Hauth; eauto | exact Hroot]. }
  destruct (String.eqb (Network mdata) "tcp") eqn:Htcp.
  - apply String.eqb_eq in Htcp.
    destruct (w_dial w (dialer s) (MagicNetwork_Encode "tcp" (uint32 (fwmark s)))
                     (target_of mdata)) as [rConn | err] eqn:Hdial.
    + pose proof (sr_tcp w s conn stream σ mdata rConn) as Hsr.
      pose proof Hadm as Hadm'. clear Hhdr Hauth Hroot ea. open_gate Hadm'.
      rewrite Htcp. cbn [String.eqb Ascii.eqb Bool.eqb run bind handle].
      unfold target_of in Hdial, Hsr. rewrite Hdial. cbn [run bind handle].
      destruct (st_relayTCP stream rConn) as [err |];
        [destruct (relay_ignored err) |];
        (split; [reflexivity | by apply Hsr]).
    + pose proof (sr_dial_timeout w s conn stream σ mdata err Hadm Htcp Hdial) as Ht.
      pose proof (sr_dial_failed w s conn stream σ mdata err Hadm Htcp Hdial) as Hf.
      pose proof Hadm as Hadm'. clear Hhdr Hauth Hroot ea. open_gate Hadm'.
      rewrite Htcp. cbn [String.eqb Ascii.eqb Bool.eqb run bind handle].
      unfold target_of in Hdial, Ht, Hf. rewrite Hdial.
      destruct (is_net_timeout err);
        (split; [reflexivity | first [by apply Ht | by apply Hf]]).
  - destruct (String.eqb (Network mdata) "udp") eqn:Hudp.
    + apply String.eqb_eq in Hudp.
      pose proof (sr_udp w s conn stream σ mdata) as Hsr.
      pose proof Hadm as Hadm'. clear Hhdr Hauth Hroot ea. open_gate Hadm'.
      rewrite Hudp. cbn [String.eqb Ascii.eqb Bool.eqb run bind handle].
      destruct (st_relayUoT stream) as [err |];
        [destruct (relay_ignored err) |];
        (split; [reflexivity | by apply Hsr]).
    + apply String.eqb_neq in Htcp, Hudp.
      rewrite (handleStream_unexpected_network w s conn stream σ mdata Hadm Htcp Hudp).
      split; [reflexivity | by apply sr_unexpected].
Qed.

(** X2: the calls that make the life of a stream, in every run of
    [handleStream] from every store.  A run that is still waiting has made
    none.  A run that returned closed the stream, once and last; before that
    it made no call, or one dial that failed, or one dial that gave a
    connection followed by the TCP relay on that connection and by the close
    of that connection, or the UDP relay alone, without a dial of its own.  No
    run changes the store. *)
Theorem X2_stream_lifecycle (w : World) (s : Server) (conn : Conn) (stream : Stream)
    (σ : Store) :
  let r := run w (handleStream s conn stream) σ in
  let calls := List.filter lifecycle (events_of r) in
  store_of r = σ ∧
  match result_of r with
  | Blocked => calls = []
  | Returned _ =>
      calls = [Ev (StreamClose stream)] ∨
      (∃ network target err,
         w_dial w (dialer s) network target = inr err ∧
         calls = [Ev (Dial (dialer s) network target); Ev (StreamClose stream)]) ∨
      (∃ network target rConn,
         w_dial w (dialer s) network target = inl rConn ∧
         calls = [Ev (Dial (dialer s) network target); Ev (RelayTCP stream rConn);
                  Ev (RConnClose rConn); Ev (StreamClose stream)]) ∨
      calls = [Ev (RelayUoT (dialer s) stream (fwmark s)); Ev (StreamClose stream)]
  end.
Proof.
  cbv zeta. destruct (handleStream_runs w s conn stream σ) as [Hst Hsr].
  split; [exact Hst |].
  destruct Hsr; cbn [List.filter lifecycle is_outbound is_dial is_relay
                     is_rconn_close is_stream_close orb]; eauto 10.
Qed.

Lemma existsb_false_filter {A : Type} (P : A -> bool) (l : list A) :
  existsb P l = false -> List.filter P l = [].
Proof.
  induction l as [| x l IH]; cbn; [reflexivity |].
  destruct (P x); [discriminate |]. exact IH.
Qed.

(** The goroutine around [handleStream], from what [handleStream] did. *)
Lemma streamTask_run (w : World) (s : Server) (σ : Store) (conn : Conn)
    (stream : Stream) :
  run w (streamTask s conn stream) σ =
  match run w (handleStream s conn stream) σ with
  | (Returned (Some err), σ', evs) =>
      (Returned tt, σ', (evs ++ [Ev (Log Warn (Some err) [] "")])%list)
  | (Returned None, σ', evs) => (Returned tt, σ', (evs ++ [])%list)
  | (Blocked, σ', evs) => (Blocked, σ', evs)
  end.
Proof.
  unfold streamTask. rewrite run_mbind.
  destruct (run w (handleStream s conn stream) σ) as [[[[err |] |] σ'] evs];
    reflexivity.
Qed.

(** X3: the warnings of a stream's goroutine.  [handleStream] itself logs
    none; its goroutine logs exactly one, carrying the error, when
    [handleStream] returned an error, and none when it returned nil or is
    still waiting. *)
Theorem X3_stream_warnings (w : World) (s : Server) (conn : Conn) (stream : Stream)
    (σ : Store) :
  List.filter is_warn (events_of (run w (handleStream s conn stream) σ)) = [] ∧
  List.filter is_warn (events_of (run w (streamTask s conn stream) σ)) =
    match result_of (run w (handleStream s conn stream) σ) with
    | Returned (Some err) => [Ev (Log Warn (Some err) [] "")]
    | _ => []
    end.
Proof.
  pose proof (run_never w is_warn _ σ (never_warn_handleStream s conn stream)) as Hn.
  apply existsb_false_filter in Hn. split; [exact Hn |].
  rewrite streamTask_run.
  destruct (run w (handleStream s conn stream) σ) as [[[[err |] |] σ'] evs];
    unfold events_of, result_of in *; cbn [fst snd] in *;
    rewrite ?List.filter_app, ?Hn; reflexivity.
Qed.



(** ** More on connections and the listener *)

(** The accept loop of [handleConn] while the root scope stays live: one
    goroutine per stream still to come, in order, then the failure of
    [AcceptStream]. *)
Lemma acceptLoop_run (w : World) (n : nat) (conn : Conn) (σ : Store) :
  root_err (conn_get σ conn) = None ->
  (length (streams_left σ conn) < n)%nat ->
  let r := run w (acceptLoop n conn) σ in
  result_of r = Returned (Some (conn_accept_err conn)) ∧
  events_of r = accept_events conn (streams_left σ conn) ∧
  root_err (conn_get (store_of r) conn) = None ∧
  auth_err (conn_get (store_of r) conn) = auth_err (conn_get σ conn) ∧
  closed (conn_get (store_of r) conn) = closed (conn_get σ conn) ∧
  accepted (conn_get (store_of r) conn) =
    (accepted (conn_get σ conn) + length (streams_left σ conn))%nat.
Proof.
  revert σ. induction n as [| n IH]; intros σ Hroot Hlen; [lia |].
  cbv zeta. cbn [acceptLoop]. unfold trigger, mbind, mret, proc_bind, proc_ret.
  cbn [run bind handle]. rewrite Hroot. unfold streams_left in *.
  destruct (conn_streams conn !! accepted (conn_get σ conn)) as [st |] eqn:Hst.
  - rewrite (drop_S _ _ _ Hst) in Hlen |- *. cbn [length] in Hlen.
    cbn [run bind handle].
    set (σ1 := conn_set σ conn (accept_next (conn_get σ conn))).
    assert (Hg : conn_get σ1 conn = accept_next (conn_get σ conn))
      by apply conn_get_set.
    specialize (IH σ1). cbv zeta in IH. rewrite Hg in IH. cbn [accept_next
      root_err auth_err closed accepted] in IH.
    destruct IH as (Hr & He & Hro & Hau & Hcl & Hac); [exact Hroot | lia |].
    fold (acceptLoop n conn).
    destruct (run w (acceptLoop n conn) σ1) as [[res σ'] evs].
    unfold result_of, events_of, store_of in *. cbn [fst snd] in *.
    subst res evs. repeat split; auto.
    rewrite Hac. cbn [length]. lia.
  - apply lookup_ge_None in Hst. rewrite drop_ge by exact Hst.
    unfold result_of, events_of, store_of. cbn [fst snd length].
    repeat split; auto; lia.
Qed.

(** X5: [handleConn] run on its own from a live root scope, with enough
    iterations for the streams still to come.  It sets the congestion
    control, starts the authentication goroutine, starts one goroutine per
    stream in the order of arrival, and returns the failure of [AcceptStream],
    never nil; its deferred calls then run, [authDone] before [cancel], and
    leave both scopes done; it never closes the connection itself. *)
Theorem X5_handleConn_run (w : World) (n : nat) (s : Server) (conn : Conn) (σ : Store) :
  root_err (conn_get σ conn) = None ->
  (length (streams_left σ conn) < n)%nat ->
  let r := run w (handleConn n s conn) σ in
  result_of r = Returned (Some (conn_accept_err conn)) ∧
  events_of r =
    (Ev (SetCongestionController conn (congestionControl s) (cwnd s))
     :: Ev (Go (GoAuth conn))
     :: accept_events conn (streams_left σ conn)
     ++ [Ev (Cancel conn Auth); Ev (Cancel conn Root)])%list ∧
  is_Some (root_err (conn_get (store_of r) conn)) ∧
  is_Some (auth_err (conn_get (store_of r) conn)) ∧
  closed (conn_get (store_of r) conn) = closed (conn_get σ conn).
Proof.
  intros Hroot Hlen. cbv zeta.
  destruct (acceptLoop_run w n conn σ Hroot Hlen) as (Hr & He & Hro & Hau & Hcl & _).
  unfold handleConn, defer, trigger, mbind, mret, proc_bind, proc_ret.
  cbn [run bind handle]. rewrite !run_bind.
  destruct (run w (acceptLoop n conn) σ) as [[res σ'] evs].
  unfold result_of, events_of, store_of in *. cbn [fst snd] in *. subst res evs.
  cbn [run bind handle fst snd]. rewrite !conn_get_set.
  split; [reflexivity |]. split.
  { cbn [app]. rewrite <- !app_assoc. reflexivity. }
  destruct (cancel_auth_root (conn_get σ' conn)) as (Hr1 & Hr2 & Hr3).
  destruct (cancel_root_done (cancel_scope Auth (conn_get σ' conn))) as [Hd1 Hd2].
  split; [exact Hd1 |]. split.
  - apply Hd2. intros _. exact Hr2.
  - rewrite !cancel_scope_closed. exact Hcl.
Qed.

(** The accept loop of [Serve]: one goroutine per connection still to
    come, then the failure of [Accept]. *)
Lemma serveLoop_run (w : World) (n : nat) (ln : Listener) (σ : Store) :
  (length (conns_left σ ln) < n)%nat ->
  run w (serveLoop n ln) σ =
  (Returned (Some (ln_err ln)),
   {| ln_pos := (ln_pos σ + length (conns_left σ ln))%nat; conns := conns σ |},
   listen_events ln (conns_left σ ln)).
Proof.
  revert σ. induction n as [| n IH]; intros σ Hlen; [lia |].
  cbn [serveLoop]. unfold trigger, mbind, mret, proc_bind, proc_ret.
  cbn [run bind handle]. unfold conns_left in *.
  destruct (ln_conns ln !! ln_pos σ) as [conn |] eqn:Hc.
  - rewrite (drop_S _ _ _ Hc) in Hlen |- *. cbn [length] in Hlen.
    cbn [run bind handle]. fold (serveLoop n ln).
    rewrite (IH {| ln_pos := S (ln_pos σ); conns := conns σ |}) by (cbn; lia).
    cbn [ln_pos conns length]. unfold listen_events. cbn [flat_map app].
    do 2 f_equal. f_equal. lia.
  - apply lookup_ge_None in Hc. rewrite drop_ge by exact Hc.
    cbn [length]. rewrite Nat.add_0_r. destruct σ. reflexivity.
Qed.

(** X6: [Serve] run on its own.  If the listener cannot be bound, [Serve]
    returns that error and starts nothing.  Otherwise it starts one goroutine
    per accepted connection, in the order of arrival, and returns the failure
    of [Accept].  In no case does it return nil, and it touches no scope and
    no connection. *)
Theorem X6_Serve_run (w : World) (n : nat) (s : Server) (addr : string) (σ : Store) :
  match w_listen w addr with
  | inr err =>
      run w (Serve n s addr) σ =
      (Returned (Some err), σ, [Ev (ListenAddr addr (tlsConfig s) (Serve_config s))])
  | inl ln =>
      (length (conns_left σ ln) < n)%nat ->
      run w (Serve n s addr) σ =
      (Returned (Some (ln_err ln)),
       {| ln_pos := (ln_pos σ + length (conns_left σ ln))%nat; conns := conns σ |},
       Ev (ListenAddr addr (tlsConfig s) (Serve_config s))
       :: listen_events ln (conns_left σ ln))
  end ∧
  result_of (run w (Serve n s addr) σ) ≠ Returned None.
Proof.
  unfold Serve, trigger, mbind, mret, proc_bind, proc_ret. cbn [run bind handle].
  destruct (w_listen w addr) as [ln | err]; cbn [run].
  - split.
    + intros Hlen. rewrite (serveLoop_run w n ln σ Hlen). reflexivity.
    + destruct (serveLoop_result w n ln σ) as [H | H];
        destruct (run w (serveLoop n ln) σ) as [[res σ'] evs];
        unfold result_of in *; cbn [fst] in *; rewrite H; discriminate.
  - split; [reflexivity | discriminate].
Qed.

(** X7: [Serve] of package [main].  It builds the server before it looks
    at [Listen]: an error of [New] is returned as it is and an empty
    [Listen] gives the error that Listen is required, in both cases without
    any effect, so nothing is bound.  Otherwise it runs [Serve] on a server
    whose dialer is the full-cone direct dialer and whose mark is 0, since the
    command passes neither [SendThrough] nor [Fwmark], and returns what that
    returns. *)
Theorem X7_main_Serve (w : World) (n : nat) (conf : Config) (σ : Store) :
  match New (main_Options conf) with
  | inr err => run w (main_Serve n conf) σ = (Returned (Some err), σ, [])
  | inl s =>
      dialer s = FullconeDirect ∧ fwmark s = 0 ∧
      if String.eqb (Listen conf) ""
      then run w (main_Serve n conf) σ = (Returned (Some ErrListenRequired), σ, [])
      else
        result_of (run w (main_Serve n conf) σ) =
          result_of (run w (Serve n s (Listen conf)) σ) ∧
        events_of (run w (main_Serve n conf) σ) =
          events_of (run w (Serve n s (Listen conf)) σ)
  end.
Proof.
  unfold main_Serve.
  destruct (New (main_Options conf)) as [s | err] eqn:HN; [| reflexivity].
  assert (Hd : dialer s = FullconeDirect ∧ fwmark s = 0).
  { unfold New, main_Options in HN. cbn [Users opt_Certificate PrivateKey
      CongestionControl Fwmark SendThrough] in HN.
    destruct (parseUsers (conf_Users conf) ∅); [| discriminate].
    destruct (LoadX509KeyPair _ _); [| discriminate].
    cbn in HN. injection HN as <-. split; reflexivity. }
  destruct Hd as [Hd Hf]. split; [exact Hd |]. split; [exact Hf |].
  destruct (String.eqb (Listen conf) ""); [reflexivity |].
  unfold mbind, mret, proc_bind, proc_ret. rewrite run_bind.
  destruct (run w (Serve n s (Listen conf)) σ) as [[[[err |] |] σ'] evs];
    unfold result_of, events_of; cbn [run fst snd]; rewrite ?app_nil_r; auto.
Qed.

(** ** The credential store *)

Lemma parseUsers_sound (l : list (string * string)) (acc m : gmap UUID string)
    (id : UUID) (password : string) :
  parseUsers l acc = inl m ->
  m !! id = Some password ->
  acc !! id = Some password ∨
  ∃ _uuid, In (_uuid, password) l ∧ uuid_Parse _uuid = inl id.
Proof.
  revert acc. induction l as [| [u p] l IH]; intros acc H Hm; cbn [parseUsers] in H.
  - injection H as <-. by left.
  - destruct (uuid_Parse u) as [id' | e] eqn:Hu; [| discriminate].
    destruct (IH _ H Hm) as [Hacc | (k & Hin & Hk)].
    + destruct (decide (id' = id)) as [-> | Hne].
      * rewrite lookup_insert_eq in Hacc. injection Hacc as ->.
        right. exists u. split; [by left | exact Hu].
      * rewrite lookup_insert_ne in Hacc by exact Hne. by left.
    + right. exists k. split; [by right | exact Hk].
Qed.

Lemma parseUsers_complete (l : list (string * string)) (acc m : gmap UUID string)
    (id : UUID) :
  parseUsers l acc = inl m ->
  is_Some (acc !! id) ∨
  (∃ _uuid password, In (_uuid, password) l ∧ uuid_Parse _uuid = inl id) ->
  is_Some (m !! id).
Proof.
  revert acc. induction l as [| [u p] l IH]; intros acc H Hc; cbn [parseUsers] in H.
  - injection H as <-. destruct Hc as [Hc | (k & pw & [] & _)]. exact Hc.
  - destruct (uuid_Parse u) as [id' | e] eqn:Hu; [| discriminate].
    apply (IH _ H).
    destruct Hc as [Hc | (k & pw & [Heq | Hin] & Hk)].
    + left. destruct (decide (id' = id)) as [-> | Hne].
      * rewrite lookup_insert_eq. eauto.
      * by rewrite lookup_insert_ne.
    + injection Heq as <- <-. left.
      assert (id' = id) as -> by congruence. rewrite lookup_insert_eq. eauto.
    + right. eauto.
Qed.

Lemma New_users (opts : Options) (s : Server) :
  New opts = inl s -> parseUsers (Users opts) ∅ = inl (users s).
Proof.
  unfold New. intros H.
  destruct (parseUsers (Users opts) ∅) as [us |]; [| discriminate].
  destruct (LoadX509KeyPair _ _); [| discriminate].
  destruct (String.eqb _ _); [by injection H as <- |].
  destruct (ParseAddr _); [by injection H as <- | discriminate].
Qed.

(** X8: the credential store of a server made by [New] holds the
    configured identifiers and nothing else.  A stored password is the
    password of a configured entry whose identifier parses to the key; every
    configured entry has its UUID in the store; and when all entries that
    parse to that UUID carry the same password, that is the password stored.
    (Two entries that parse to one UUID with different passwords leave the one
    that the range over the map visits last.) *)
Theorem X8_New_credential_store (opts : Options) (s : Server) (id : UUID) :
  New opts = inl s ->
  (∀ password, users s !! id = Some password ->
     ∃ _uuid, In (_uuid, password) (Users opts) ∧ uuid_Parse _uuid = inl id) ∧
  (∀ _uuid password, In (_uuid, password) (Users opts) -> uuid_Parse _uuid = inl id ->
     is_Some (users s !! id) ∧
     ((∀ _uuid' password', In (_uuid', password') (Users opts) ->
         uuid_Parse _uuid' = inl id -> password' = password) ->
      users s !! id = Some password)).
Proof.
  intros HN. apply New_users in HN. split.
  - intros password Hm.
    destruct (parseUsers_sound _ _ _ id password HN Hm) as [He | H]; [| exact H].
    rewrite lookup_empty in He. discriminate.
  - intros k password Hin Hk.
    assert (Hs : is_Some (users s !! id)).
    { apply (parseUsers_complete _ _ _ id HN). right. eauto. }
    split; [exact Hs |]. intros Huniq. destruct Hs as [pw0 Hpw0].
    destruct (parseUsers_sound _ _ _ id pw0 HN Hpw0) as [He | (k0 & Hin0 & Hk0)].
    + rewrite lookup_empty in He. discriminate.
    + rewrite Hpw0. f_equal. by apply (Huniq k0).
Qed.

(** X9: from the configuration to the handshake.  On a server made by
    [New], whoever [handleAuth] accepts presented a UUID that a configured
    identifier parses to, with the token derived from the connection's TLS
    state, that UUID and the password of such an entry. *)
Theorem X9_authenticated_is_configured (w : World) (opts : Options) (s : Server)
    (σ : Store) (conn : Conn) (id : UUID) :
  New opts = inl s ->
  result_of (run w (handleAuth s conn) σ) = Returned (inl id) ->
  ∃ _uuid password a,
    In (_uuid, password) (Users opts) ∧
    uuid_Parse _uuid = inl id ∧
    presented σ conn a ∧
    auth_UUID a = id ∧
    GenToken (conn_state conn) id password = inl (TOKEN a).
Proof.
  intros HN Hr. apply handleAuth_success_iff in Hr as (a & password & Hp & Hid & Hus & Hg).
  apply New_users in HN.
  destruct (parseUsers_sound _ _ _ id password HN Hus) as [He | (k & Hin & Hk)].
  - rewrite lookup_empty in He. discriminate.
  - exists k, password, a. auto.
Qed.

(** ** Roles under every schedule *)

(** Walks a program and checks each effect against the goroutine's role. *)
Ltac in_role :=
  repeat first
    [ exact I | assumption | progress cbn [never bind] | apply never_bind
    | match goal with
      | |- _ ∧ _ => split
      | |- ∀ _, _ => intro
      | |- misplaced _ _ = false =>
          unfold misplaced; cbn; rewrite ?Nat.eqb_refl; reflexivity
      | |- never _ (match ?x with _ => _ end) => destruct x
      | |- never _ (if ?b then _ else _) => destruct b
      end ].

Lemma never_misplaced_body (s : Server) (n : nat) (g : goroutine) :
  never (misplaced g) (body s n g).
Proof.
  destruct g as [conn | conn | conn stream]; cbn [body].
  - assert (Hloop : ∀ k, never (misplaced (GoHandleConn conn)) (acceptLoop k conn)).
    { induction k as [| k IH]; cbn [acceptLoop].
      - unfold forever. cbn [never]. split; [| intros []].
        unfold misplaced. cbn. reflexivity.
      - unfold trigger, mbind, mret, proc_bind, proc_ret. cbn [bind never].
        split; [unfold misplaced; cbn; by rewrite Nat.eqb_refl |].
        intros [stream | err]; cbn [bind never]; [| exact I].
        split; [reflexivity |]. intros _. exact IH. }
    pose proof (Hloop n).
    unfold connTask, handleConn, defer, trigger, mbind, mret, proc_bind, proc_ret.
    in_role.
  - unfold authTask, handleAuth, trigger, mbind, mret, proc_bind, proc_ret.
    in_role.
  - unfold streamTask, handleStream, defer, trigger, mbind, mret, proc_bind, proc_ret.
    in_role.
Qed.

Lemma step_roles (w : World) (s : Server) (n : nat) (i : nat) (Σ Σ' : Sys) :
  step w s n i Σ = Some Σ' ->
  (∀ j e, In (j, e) (trace Σ) ->
     ∃ g p, threads Σ !! j = Some (g, p) ∧ misplaced g e = false) ∧
  (∀ j g p, threads Σ !! j = Some (g, p) -> never (misplaced g) p) ->
  (∀ j e, In (j, e) (trace Σ') ->
     ∃ g p, threads Σ' !! j = Some (g, p) ∧ misplaced g e = false) ∧
  (∀ j g p, threads Σ' !! j = Some (g, p) -> never (misplaced g) p).
Proof.
  unfold step. intros Hstep [Htr Hth].
  destruct (threads Σ !! i) as [[g [r | A o k]] |] eqn:Hi; try discriminate.
  destruct (handle w o (store Σ)) as [[[a σ'] gs] |]; [| discriminate].
  injection Hstep as <-. cbn [trace threads].
  assert (Hlt : (i < length (threads Σ))%nat) by (eapply lookup_lt_Some; eauto).
  destruct (Hth i g _ Hi) as [Ho Hk].
  assert (Hkeep : ∀ j g' p, threads Σ !! j = Some (g', p) ->
            ∃ p', (<[i := (g, k a)]> (threads Σ)
                   ++ map (fun g0 => (g0, body s n g0)) gs)%list !! j
                  = Some (g', p')).
  { intros j g' p Hj.
    assert ((j < length (threads Σ))%nat) by (eapply lookup_lt_Some; eauto).
    rewrite lookup_app_l by (by rewrite length_insert).
    destruct (decide (j = i)) as [-> | Hne].
    - rewrite list_lookup_insert_eq by exact Hlt.
      rewrite Hi in Hj. injection Hj as <- _. eauto.
    - rewrite list_lookup_insert_ne by auto. eauto. }
  split.
  - intros j e Hin. apply in_app_or in Hin as [Hin | [Heq | []]].
    + destruct (Htr j e Hin) as (g' & p & Hj & Hm).
      destruct (Hkeep j g' p Hj) as [p' Hp']. eauto.
    + injection Heq as <- <-.
      destruct (Hkeep i g _ Hi) as [p' Hp']. eauto.
  - intros j g' p Hj.
    destruct (decide (j < length (threads Σ))%nat) as [Hj' | Hj'].
    + rewrite lookup_app_l in Hj by (by rewrite length_insert).
      destruct (decide (j = i)) as [-> | Hne].
      * rewrite list_lookup_insert_eq in Hj by exact Hlt. injection Hj as <- <-.
        apply Hk.
      * rewrite list_lookup_insert_ne in Hj by auto. by apply (Hth j).
    + rewrite lookup_app_r in Hj by (rewrite length_insert; lia).
      apply list_elem_of_lookup_2, list_elem_of_In, in_map_iff in Hj
        as (g0 & Heq & _).
      injection Heq as <- <-. apply never_misplaced_body.
Qed.

Lemma exec_roles (w : World) (s : Server) (n : nat) (sched : list nat) (Σ0 Σ : Sys) :
  exec w s n sched Σ0 = Some Σ ->
  (∀ j e, In (j, e) (trace Σ0) ->
     ∃ g p, threads Σ0 !! j = Some (g, p) ∧ misplaced g e = false) ∧
  (∀ j g p, threads Σ0 !! j = Some (g, p) -> never (misplaced g) p) ->
  (∀ j e, In (j, e) (trace Σ) ->
     ∃ g p, threads Σ !! j = Some (g, p) ∧ misplaced g e = false) ∧
  (∀ j g p, threads Σ !! j = Some (g, p) -> never (misplaced g) p).
Proof.
  revert Σ0. induction sched as [| j sched IH]; intros Σ0 Hex H0; cbn [exec] in Hex.
  - injection Hex as Heq. subst Σ. exact H0.
  - destruct (step w s n j Σ0) as [Σ1 |] eqn:Hs; [| discriminate].
    apply (IH Σ1); [exact Hex |]. by apply (step_roles w s n j Σ0).
Qed.

Lemma start_roles (s : Server) (n : nat) (g0 : goroutine) :
  (∀ j e, In (j, e) (trace (start s n g0)) ->
     ∃ g p, threads (start s n g0) !! j = Some (g, p) ∧ misplaced g e = false) ∧
  (∀ j g p, threads (start s n g0) !! j = Some (g, p) -> never (misplaced g) p).
Proof.
  split; [intros j e' [] |].
  intros [| j] g p Hj; [| discriminate]. injection Hj as Hg Hp. subst g p.
  apply never_misplaced_body.
Qed.

(** X10: roles, under every schedule from the start of any goroutine.
    Every effect in the trace was performed by a goroutine that still exists;
    a call of [CloseWithError] is an authentication goroutine's; a goroutine
    is started by a connection's goroutine only; no stream's goroutine cancels
    a scope; and an effect addressed to a connection comes from a goroutine of
    that connection. *)
Theorem X10_roles (w : World) (s : Server) (n : nat) (g0 : goroutine)
    (sched : list nat) (Σ : Sys) (i : nat) (e : event) :
  exec w s n sched (start s n g0) = Some Σ ->
  In (i, e) (trace Σ) ->
  ∃ g p,
    threads Σ !! i = Some (g, p) ∧
    (is_close e = true -> ∃ conn, g = GoAuth conn) ∧
    (is_go e = true -> ∃ conn, g = GoHandleConn conn) ∧
    (is_cancel e = true -> ∀ conn stream, g ≠ GoStream conn stream) ∧
    (∀ conn, event_conn e = Some conn -> conn_id conn = conn_id (conn_of g)).
Proof.
  intros Hex Hin.
  assert (Hinv := exec_roles w s n sched _ _ Hex (start_roles s n g0)).
  destruct Hinv as [Htr _]. destruct (Htr i e Hin) as (g & p & Hth & Hm).
  exists g, p. split; [exact Hth |].
  unfold misplaced in Hm.
  repeat (apply orb_false_elim in Hm as [Hm ?]).
  repeat split.
  - intros Hc. rewrite Hc in Hm. destruct g; try discriminate. eauto.
  - intros Hc. rewrite Hc in *. destruct g; try discriminate. eauto.
  - intros Hc conn stream ->. rewrite Hc in *. discriminate.
  - intros conn Hc. rewrite Hc in *. by apply Nat.eqb_eq, negb_false_iff.
Qed.

(** X11: the advertised limit is the configured limit plus ten percent,
    rounded up: for a limit up to 10000 it is the least integer that is at
    least eleven tenths of the limit. *)
Theorem X11_headroom_bounds (s : Server) :
  0 <= maxOpenIncomingStreams s <= 10000 ->
  let m := MaxIncomingStreams (Serve_config s) in
  11 * maxOpenIncomingStreams s <= 10 * m ∧
  10 * (m - 1) < 11 * maxOpenIncomingStreams s.
Proof.
  intros H. cbv zeta. cbn [Serve_config MaxIncomingStreams].
  rewrite (add_headroom_small _ H). unfold ceil_div.
  pose proof (Z.div_mod (- maxOpenIncomingStreams s) 10).
  pose proof (Z.mod_pos_bound (- maxOpenIncomingStreams s) 10). lia.
Qed.

End Properties.

Import Demo.
#[local] Existing Instance Demo.ext.


(** ** The properties on the scenarios *)

Lemma New_opts : New opts = inl srv.
Proof. vm_compute. reflexivity. Qed.

Lemma admitted_open (stream : Stream) (mdata : Metadata) :
  st_header stream = inl mdata -> admitted good_conn stream σ_open mdata.
Proof.
  intros H. split; [exact H |]. unfold σ_open. rewrite conn_get_set.
  split; [eexists |]; reflexivity.
Qed.

(** C10 on a stream reset before its header, with authentication pending:
    it returns the read error, while the stream with a header waits. *)
Lemma C10_witness :
  run world (handleStream srv hasty_conn broken_stream) store0 =
    (Returned (Some ErrEOF), store0,
     [Ev (ReadHeader broken_stream); Ev (StreamClose broken_stream)]) ∧
  run world (handleStream srv hasty_conn tcp_stream) store0 =
    (Blocked, store0, [Ev (ReadHeader tcp_stream)]).
Proof.
  destruct (C10_header_failure_skips_gate world srv hasty_conn broken_stream store0
              ErrEOF eq_refl) as (H1 & _ & H3).
  split; [exact H1 | exact (H3 tcp_stream _ eq_refl)].
Defined.

(** A stream asking for "icmp" on a connection whose authentication failed
    returns the root scope's error, not the unexpected-network error. *)
Lemma C9_counterexample :
  st_header icmp_stream = inl icmp_request ∧
  Network icmp_request ≠ "tcp" ∧ Network icmp_request ≠ "udp" ∧
  result_of (run world (handleStream srv good_conn icmp_stream) σ_failed) =
    Returned (Some ErrCanceled) ∧
  ErrCanceled ≠ unexpected_network icmp_request.
Proof. repeat split; try discriminate. Qed.

(** C9 on the same stream after a successful authentication. *)
Lemma C9_witness :
  result_of (run world (handleStream srv good_conn icmp_stream) σ_open) =
    Returned (Some (ErrNew "unexpected network: icmp")) ∧
  existsb is_dial (events_of (run world (handleStream srv good_conn icmp_stream) σ_open))
    = false.
Proof.
  assert (H1 : Network icmp_request ≠ "tcp") by discriminate.
  assert (H2 : Network icmp_request ≠ "udp") by discriminate.
  destruct (C9_unsupported_network world srv good_conn icmp_stream σ_open
              icmp_request eq_refl H1 H2) as (Hd & _ & Hr).
  split; [exact Hr | exact Hd].
Defined.

(** C6 on a "tcp" request whose dial times out. *)
Lemma C6_witness :
  result_of (run slow_world (handleStream srv good_conn tcp_stream) σ_open) =
    Returned None ∧
  existsb is_relay (events_of (run slow_world (handleStream srv good_conn tcp_stream) σ_open))
    = false.
Proof.
  destruct (C6_dial_and_relay_outcomes slow_world srv good_conn tcp_stream σ_open _
              (admitted_open tcp_stream _ eq_refl)) as [Htcp _].
  exact (Htcp eq_refl).
Defined.

(** C2 on the right token and on a wrong one. *)
Lemma C2_witness :
  (let t := run world (authTask srv good_conn) store0 in
   is_Some (auth_err (conn_get (store_of t) good_conn)) ∧
   root_err (conn_get (store_of t) good_conn) = None ∧
   closed (conn_get (store_of t) good_conn) = None) ∧
  (let t := run world (authTask srv badtoken_conn) store0 in
   is_Some (root_err (conn_get (store_of t) badtoken_conn)) ∧
   is_Some (auth_err (conn_get (store_of t) badtoken_conn)) ∧
   ∃ reason, closed (conn_get (store_of t) badtoken_conn)
             = Some (AuthenticationFailed, reason)).
Proof.
  split; cbv zeta.
  - destruct (C2_auth_task_outcome world srv store0 good_conn
                (scopes_ok_fresh good_conn)) as (_ & Ha & Hr & Hc & _).
    split; [exact Ha |]. split; [exact Hr | exact Hc].
  - destruct (C2_auth_task_outcome world srv store0 badtoken_conn
                (scopes_ok_fresh badtoken_conn)) as (_ & Hr & Ha & Hc & _).
    split; [exact Hr |]. split; [exact Ha | exact (Hc eq_refl)].
Defined.

(** No control stream within the ten seconds: [handleAuth] fails with the
    deadline error, which is none of the three named errors. *)
Lemma C3_counterexample :
  result_of (run world (handleAuth srv silent_conn) store0) =
    Returned (inr ErrDeadlineExceeded) ∧
  errors_Is ErrDeadlineExceeded ErrUnexpectedVersion = false ∧
  errors_Is ErrDeadlineExceeded ErrUnexpectedCmdType = false ∧
  errors_Is ErrDeadlineExceeded ErrAuthenticationFailed = false.
Proof. repeat split. Qed.

(** C3 on the right token, on an identifier that is not configured, and on
    a control stream that never comes. *)
Lemma C3_witness :
  result_of (run world (handleAuth srv good_conn) store0) = Returned (inl 1%N) ∧
  result_of (run world (handleAuth srv absent_conn) store0) =
    Returned (inr (ErrWrapV ErrAuthenticationFailed "2")) ∧
  result_of (run world (handleAuth srv silent_conn) store0) =
    Returned (inr ErrDeadlineExceeded).
Proof.
  split; [| split].
  - destruct (C3_handleAuth_outcome world srv store0 good_conn) as (H & _).
    apply H. exists {| auth_UUID := 1%N; TOKEN := 5012%N |}, "S1".
    repeat split. exists (control 1%N 5012%N), {| TYPE := 0 |}. repeat split.
  - destruct (C3_handleAuth_outcome world srv store0 absent_conn)
      as (_ & _ & _ & H & _).
    apply (H {| auth_UUID := 2%N; TOKEN := 4711%N |}).
    + exists (control 2%N 4711%N), {| TYPE := 0 |}. repeat split.
    + left. reflexivity.
  - destruct (C3_handleAuth_outcome world srv store0 silent_conn)
      as (_ & _ & _ & _ & H & _).
    apply H. reflexivity.
Defined.

(** C4: two failed authentications on connections that differ only in the
    command presented.  The unknown identifier is closed with an empty
    reason, the known identifier with a wrong token with the reason
    "authentication failed": the peer can tell them apart. *)
Theorem C4_close_reason_reveals_identifier :
  let absent := run world (authTask srv absent_conn) store0 in
  let badtoken := run world (authTask srv badtoken_conn) store0 in
  users srv !! 2%N = None ∧
  users srv !! 1%N = Some "S1" ∧
  closed (conn_get (store_of absent) absent_conn) = Some (AuthenticationFailed, "") ∧
  closed (conn_get (store_of badtoken) badtoken_conn) =
    Some (AuthenticationFailed, "authentication failed") ∧
  closed (conn_get (store_of absent) absent_conn) ≠
    closed (conn_get (store_of badtoken) badtoken_conn).
Proof. cbv zeta. repeat split. vm_compute. discriminate. Qed.

(** C1: the gate does not hold when [handleConn] returns first.  On the
    schedule of the hasty client the authentication goroutine has done
    nothing yet when the deferred [authDone] of [handleConn] runs; the stream
    passes the wait, finds the root scope live, and the dialer and the relay
    are called for it.  Afterwards [handleAuth] fails on that connection,
    which is closed with the authentication-failure code: a stream of a
    connection whose authentication fails has reached the dialer and the
    relay. *)
Theorem C1_deferred_authDone_opens_gate :
  let after sched := exec world srv 3 sched (start srv 3 (GoHandleConn hasty_conn)) in
  (Σ ← after race_opens_gate;
   Some (performed 1 anything (trace Σ),
         performed 0 (is_authDone hasty_conn) (trace Σ),
         root_err (conn_get (store Σ) hasty_conn),
         auth_err (conn_get (store Σ) hasty_conn),
         performed 2 is_wait (trace Σ),
         performed 2 is_dial (trace Σ),
         performed 2 is_relay (trace Σ)))
  = Some (false, true, None, Some ErrCanceled, true, true, true) ∧
  (Σ ← after (race_opens_gate ++ race_auth_fails)%list;
   Some (performed 1 is_auth_failure (trace Σ),
         performed 1 (is_authDone hasty_conn) (trace Σ),
         root_err (conn_get (store Σ) hasty_conn),
         closed (conn_get (store Σ) hasty_conn),
         performed 2 is_dial (trace Σ),
         performed 2 is_relay (trace Σ)))
  = Some (true, false, Some ErrCanceled, Some (AuthenticationFailed, ""), true, true).
Proof. cbv zeta. split; vm_compute; reflexivity. Qed.

(** A wrong token: the failure of the accept loop comes from the cancelled
    root scope, and the warning is logged all the same. *)
Lemma C5_counterexample :
  (Σ ← exec world srv 1 rejected_schedule (start srv 1 (GoHandleConn badtoken_conn));
   Some (performed 1 is_auth_failure (trace Σ),
         root_err (conn_get (store Σ) badtoken_conn),
         last (trace Σ)))
  = Some (true, Some ErrCanceled,
          Some (0%nat, Ev (Log Warn (Some ErrCanceled) [] ""))) ∧
  is_net_timeout ErrCanceled = false.
Proof. split; vm_compute; reflexivity. Qed.

(** C5 on a connection whose root scope a failed authentication has
    cancelled. *)
Lemma C5_witness :
  events_of (run world (connTask 1 srv good_conn) σ_failed) =
  (events_of (run world (handleConn 1 srv good_conn) σ_failed)
   ++ [Ev (Log Warn (Some ErrCanceled) [] "")])%list.
Proof.
  destruct (C5_connection_failure_logging world 1 srv σ_failed good_conn) as (H & _).
  exact (proj2 (H ErrCanceled eq_refl)).
Defined.

(** C7 on the server made of [opts]. *)
Lemma C7_witness :
  MaxIncomingStreams (Serve_config srv) = 110 ∧
  MaxIncomingUniStreams (Serve_config srv) = 110 ∧
  MaxIncomingStreams (Serve_config srv) = 100 + ceil_div 100 10.
Proof.
  destruct (C7_advertised_stream_limits world 1 srv "0.0.0.0:443" store0)
    as (_ & _ & Hf & Hn).
  destruct (Hn opts New_opts) as (_ & H1 & H2).
  split; [exact H1 |]. split; [exact H2 |].
  apply Hf. cbn. lia.
Defined.

(** C8 on a malformed identifier, on a malformed and on a well-formed
    [SendThrough], and without [SendThrough]. *)
Lemma C8_witness :
  (∃ err, New bad_user_opts = inr err) ∧
  (∃ err, New (bound_opts "localhost") = inr err) ∧
  New (bound_opts "10.0.0.1") = inl bound_srv ∧
  (∃ lAddr, ParseAddr "10.0.0.1" = inl lAddr ∧
            dialer bound_srv = NewDirectDialerLaddr true lAddr) ∧
  New opts = inl srv ∧
  dialer srv = FullconeDirect.
Proof.
  assert (Hb : New (bound_opts "10.0.0.1") = inl bound_srv) by (vm_compute; reflexivity).
  split; [| split; [| split; [exact Hb | split; [| split; [exact New_opts |]]]]].
  - apply (C8_New_outcome bad_user_opts). left.
    exists "not-a-uuid", "S2", (ErrNew "invalid UUID length").
    split; [right; left; reflexivity | reflexivity].
  - apply (C8_New_outcome (bound_opts "localhost")). right. right.
    split; [discriminate | eexists; reflexivity].
  - destruct (C8_New_outcome (bound_opts "10.0.0.1")) as [_ Hd].
    destruct (Hd bound_srv Hb) as [_ Hbound]. apply Hbound. discriminate.
  - destruct (C8_New_outcome opts) as [_ Hd].
    destruct (Hd srv New_opts) as [Hf _]. apply Hf. reflexivity.
Defined.

(** ** The further properties on the concrete setting *)

(** X1 on the authorised client: its stream dials and relays, and the gate
    had been opened. *)
Lemma X1_witness :
  match exec world srv 3 served_schedule (start srv 3 (GoHandleConn served_conn)) with
  | Some Σ =>
      performed 2 is_outbound (trace Σ) = true ∧
      ∃ p conn stream,
        threads Σ !! 2%nat = Some (GoStream conn stream, p) ∧
        opened conn (trace Σ) = true
  | None => False
  end.
Proof.
  assert (Hc : (Σ ← exec world srv 3 served_schedule
                      (start srv 3 (GoHandleConn served_conn));
                Some (performed 2 is_outbound (trace Σ))) = Some true)
    by (vm_compute; reflexivity).
  destruct (exec world srv 3 served_schedule
              (start srv 3 (GoHandleConn served_conn))) as [Σ |] eqn:HE;
    [| discriminate Hc].
  cbn in Hc. injection Hc as Hp. split; [exact Hp |].
  exact (outbound_only_after_authDone world srv 3 (GoHandleConn served_conn)
           served_schedule Σ 2 HE Hp).
Defined.

(** X5 on the authorised client, from the initial store. *)
Lemma X5_witness :
  result_of (run world (handleConn 2 srv served_conn) store0) =
    Returned (Some (ErrNew "Application error 0x0 (remote)")) ∧
  events_of (run world (handleConn 2 srv served_conn) store0) =
    [Ev (SetCongestionController served_conn "bbr" 10);
     Ev (Go (GoAuth served_conn));
     Ev (AcceptStream served_conn);
     Ev (Go (GoStream served_conn tcp_stream));
     Ev (AcceptStream served_conn);
     Ev (Cancel served_conn Auth);
     Ev (Cancel served_conn Root)].
Proof.
  destruct (X5_handleConn_run world 2 srv served_conn store0) as (H1 & H2 & _).
  - reflexivity.
  - apply Nat.ltb_lt. vm_compute. reflexivity.
  - split; [exact H1 | exact H2].
Defined.

(** X6 on a listener that delivers two connections. *)
Lemma X6_witness :
  run open_world (Serve 3 srv "0.0.0.0:443") store0 =
  (Returned (Some (ErrNew "server closed")),
   {| ln_pos := 2; conns := conns store0 |},
   [Ev (ListenAddr "0.0.0.0:443" (tlsConfig srv) (Serve_config srv));
    Ev (Accept demo_listener); Ev (Go (GoHandleConn good_conn));
    Ev (Accept demo_listener); Ev (Go (GoHandleConn hasty_conn));
    Ev (Accept demo_listener)]).
Proof.
  apply (proj1 (X6_Serve_run open_world 3 srv "0.0.0.0:443" store0)).
  apply Nat.ltb_lt. vm_compute. reflexivity.
Defined.

(** X8 on [opts]: the store of [srv] holds S1 for the UUID of U1. *)
Lemma X8_witness :
  New opts = inl srv ∧ users srv !! 1%N = Some "S1".
Proof.
  split; [exact New_opts |].
  destruct (X8_New_credential_store opts srv 1%N New_opts) as [_ H].
  destruct (H "U1" "S1") as [_ Hu].
  - left. reflexivity.
  - reflexivity.
  - apply Hu. intros k pw [Heq | []] _. by injection Heq as _ <-.
Defined.

(** X9 on the authorised client: the one configured entry is found. *)
Lemma X9_witness :
  ∃ _uuid password a,
    In (_uuid, password) (Users opts) ∧
    uuid_Parse _uuid = inl 1%N ∧
    presented store0 good_conn a ∧
    auth_UUID a = 1%N ∧
    GenToken (conn_state good_conn) 1%N password = inl (TOKEN a).
Proof.
  apply (X9_authenticated_is_configured world opts srv store0 good_conn 1%N New_opts).
  vm_compute. reflexivity.
Defined.

(** X10 on the client with the wrong token: the connection is closed by
    its authentication goroutine. *)
Lemma X10_witness :
  match exec world srv 1 rejected_schedule
          (start srv 1 (GoHandleConn badtoken_conn)) with
  | Some Σ =>
      performed 1 is_close (trace Σ) = true ∧
      ∃ p conn, threads Σ !! 1%nat = Some (GoAuth conn, p)
  | None => False
  end.
Proof.
  assert (Hc : (Σ ← exec world srv 1 rejected_schedule
                      (start srv 1 (GoHandleConn badtoken_conn));
                Some (performed 1 is_close (trace Σ))) = Some true)
    by (vm_compute; reflexivity).
  destruct (exec world srv 1 rejected_schedule
              (start srv 1 (GoHandleConn badtoken_conn))) as [Σ |] eqn:HE;
    [| discriminate Hc].
  cbn in Hc. injection Hc as Hp. split; [exact Hp |].
  apply existsb_exists in Hp as ([j e] & Hin & Hb).
  apply andb_prop in Hb as [Hj He]. apply Nat.eqb_eq in Hj. cbn in Hj, He. subst j.
  destruct (X10_roles world srv 1 (GoHandleConn badtoken_conn) rejected_schedule
              Σ 1 e HE Hin) as (g & p & Hth & Hclose & _).
  destruct (Hclose He) as [conn ->]. eauto.
Defined.

(** X11 on the server made of [opts]: 110 is the least integer that is at
    least eleven tenths of 100. *)
Lemma X11_witness :
  11 * 100 <= 10 * MaxIncomingStreams (Serve_config srv) ∧
  10 * (MaxIncomingStreams (Serve_config srv) - 1) < 11 * 100.
Proof.
  apply (X11_headroom_bounds srv). cbn. lia.
Defined.
